(** * Vendor panel: query keys, data hooks, route loader and two views

    A shallow embedding of the shipping-profile data hooks
    (hooks/api/shipping-profiles), the shipping-profile route loader, the
    inventory list table and the submit handler of the edit-store form,
    together with the properties the specification states about them.

    JavaScript objects used as records are finite maps from property names
    to values; arrays are lists; an optional argument is an [option] ([None]
    is [undefined]) and so is an optional property that is only read ([None]
    is an absent or undefined property).  Where an options object is spread
    over a property written before it, an absent property and a property set
    to [undefined] differ, and the property is a [Property].  Promises are
    modelled by their outcome ([Resolved] or [Rejected]); the module-level
    [queryClient] is threaded through explicitly as the state it holds. *)

From stdpp Require Import base strings list gmap.

Open Scope string_scope.
Open Scope list_scope.

(** ** Values *)

(** Values carried by query parameters and payloads: JSON scalars and arrays
    of scalars (ids, field lists, limits, offsets, flags). *)
Inductive Scalar :=
  | SBool (b : bool)
  | SNum (n : Z)
  | SStr (s : string).

Inductive JValue :=
  | JScalar (s : Scalar)
  | JArray (l : list Scalar).

#[global] Instance Scalar_eq_dec : EqDecision Scalar.
Proof. solve_decision. Defined.

#[global] Instance JValue_eq_dec : EqDecision JValue.
Proof. solve_decision. Defined.

(** [Record<string, any>]: equality of maps is structural equality of the
    objects (property order plays no role). *)
Abbreviation JObject := (gmap string JValue).

(** ** Query keys *)

(** [QueryKey = readonly unknown[]]; the elements the factory produces are
    strings (tag, scope, id) and query objects. *)
Inductive KeyPart :=
  | KStr (s : string)
  | KObj (o : JObject).

#[global] Instance KeyPart_eq_dec : EqDecision KeyPart.
Proof. solve_decision. Defined.

Abbreviation QueryKey := (list KeyPart).

(** An optional trailing argument contributes an element only when given. *)
Definition optPart (query : option JObject) : QueryKey :=
  match query with
  | Some q => [KObj q]
  | None => []
  end.

Record QueryKeys := {
  qk_all : QueryKey;
  qk_lists : QueryKey;
  qk_list : option JObject -> QueryKey;
  qk_details : QueryKey;
  qk_detail : string -> option JObject -> QueryKey;
}.

(** Modelled from the spec: [queryKeysFactory] of lib/query-key-factory,
    which is imported by the hooks but is not among the sources.  Section 4.1:
    [all] is [[tag]], [lists()] is [[tag, "list"]], [list(query?)] is
    [[tag, "list", query]] with the query omitted if undefined, [details()]
    is [[tag, "detail"]] and [detail(id, query?)] is
    [[tag, "detail", id, query]]; the optional query of [detail] is treated
    like the optional query of [list]. *)
Definition queryKeysFactory (globalKey : string) : QueryKeys :=
  let all := [KStr globalKey] in
  let lists := all ++ [KStr "list"] in
  let details := all ++ [KStr "detail"] in
  {| qk_all := all;
     qk_lists := lists;
     qk_list := fun query => lists ++ optPart query;
     qk_details := details;
     qk_detail := fun id query => details ++ KStr id :: optPart query |}.

Definition SHIPPING_PROFILE_QUERY_KEY : string := "shipping_profile".

Definition shippingProfileQueryKeys : QueryKeys :=
  queryKeysFactory SHIPPING_PROFILE_QUERY_KEY.

(** [k1] is a strict array-prefix of [k2]: a prefix with at least one more
    element behind it. *)
Definition strict_prefix (k1 k2 : QueryKey) : Prop :=
  k1 `prefix_of` k2 /\ k1 <> k2.

(** Prefix matching of a filter key against a cached key, as a test. *)
Definition matchesKey (filterKey key : QueryKey) : bool :=
  bool_decide (filterKey `prefix_of` key).


(** ** The network boundary *)

Inductive Method := GET | POST | DELETE.

(** The typed fetch error: an HTTP status and a message. *)
Record FetchError := {
  fe_status : Z;
  fe_message : string;
}.

(** How a promise settles. *)
Inductive Outcome (A : Type) :=
  | Resolved (a : A)
  | Rejected (e : FetchError).

Arguments Resolved {A} a.
Arguments Rejected {A} e.

(** One HTTP request: the path and the init object handed to the transport
    ([method], optional [query], optional [body]). *)
Record Request := {
  req_path : string;
  req_method : Method;
  req_query : option JObject;
  req_body : option JObject;
}.

#[global] Instance Method_eq_dec : EqDecision Method.
Proof. solve_decision. Defined.

#[global] Instance Request_eq_dec : EqDecision Request.
Proof. solve_decision. Defined.

(** Modelled from the spec: [fetchQuery] of lib/client, the transport
    collaborator, which is not among the sources.  Section 6: a call issues
    one HTTP request made of a method, a resource path, an optional
    query-parameter object and an optional body.  The call is represented by
    the request it sends; the answer comes from the [Server]. *)
Definition fetchQuery (url : string) (method : Method)
    (query body : option JObject) : Request :=
  {| req_path := url; req_method := method;
     req_query := query; req_body := body |}.

(** The backend, as seen from the client: the outcome of each request. *)
Definition Server := Request -> Outcome JObject.

(** ** The cache store ([queryClient]) *)

(** A cached entry: created on the first successful fetch, marked stale on
    invalidation; an entry with subscribers is refetched in the background
    when it is invalidated. *)
Record CachedQuery := {
  cq_key : QueryKey;
  cq_data : JObject;
  cq_isInvalidated : bool;
  cq_observers : nat;
  cq_fetching : bool;
}.

(** What the hooks and the loader act on: the entries of the module-level
    [queryClient] and the requests sent so far, oldest first. *)
Record World := {
  cache : list CachedQuery;
  sent : list Request;
}.

Definition withCache (w : World) (c : list CachedQuery) : World :=
  {| cache := c; sent := sent w |}.

(** Send one request. *)
Definition perform (server : Server) (r : Request) (w : World)
    : Outcome JObject * World :=
  (server r, {| cache := cache w; sent := sent w ++ [r] |}).

Definition markStale (e : CachedQuery) : CachedQuery :=
  {| cq_key := cq_key e;
     cq_data := cq_data e;
     cq_isInvalidated := true;
     cq_observers := cq_observers e;
     cq_fetching := if decide (cq_observers e = 0) then cq_fetching e else true |}.

(** The cache store is the data-fetching library's, an external collaborator.
    Invalidation marks the entries matching a key prefix stale, at once; for
    an entry with subscribers it also schedules a background refetch
    ([cq_fetching]), whose request the library sends later, outside the
    steps modelled here: [sent] logs the requests of the fetches the hooks
    and the loader run themselves. *)
Definition invalidateEntries (filterKey : QueryKey)
    (c : list CachedQuery) : list CachedQuery :=
  map (fun e => if matchesKey filterKey (cq_key e) then markStale e else e) c.

Definition invalidateQueries (filterKey : QueryKey) (w : World) : World :=
  withCache w (invalidateEntries filterKey (cache w)).

Definition hasKey (key : QueryKey) (e : CachedQuery) : bool :=
  bool_decide (cq_key e = key).

Definition getQuery (key : QueryKey) (c : list CachedQuery)
    : option CachedQuery :=
  find (hasKey key) c.

Definition freshEntry (key : QueryKey) (data : JObject) : CachedQuery :=
  {| cq_key := key; cq_data := data; cq_isInvalidated := false;
     cq_observers := 0; cq_fetching := false |}.

Definition refreshed (data : JObject) (e : CachedQuery) : CachedQuery :=
  {| cq_key := cq_key e; cq_data := data; cq_isInvalidated := false;
     cq_observers := cq_observers e; cq_fetching := false |}.

(** Store the data of a successful fetch under [key]. *)
Definition setQueryData (key : QueryKey) (data : JObject)
    (c : list CachedQuery) : list CachedQuery :=
  match getQuery key c with
  | Some _ => map (fun e => if hasKey key e then refreshed data e else e) c
  | None => c ++ [freshEntry key data]
  end.

(** The fresh data cached under [key], if any. *)
Definition freshData (key : QueryKey) (c : list CachedQuery) : option JObject :=
  match getQuery key c with
  | Some e => if cq_isInvalidated e then None else Some (cq_data e)
  | None => None
  end.

(** A query key together with the fetch that fills it. *)
Record FetchQueryOptions := {
  fq_queryKey : QueryKey;
  fq_queryFn : Request;
}.

Definition fetchAndStore (server : Server) (q : FetchQueryOptions) (w : World)
    : Outcome JObject * World :=
  match perform server (fq_queryFn q) w with
  | (Resolved data, w') =>
      (Resolved data, withCache w' (setQueryData (fq_queryKey q) data (cache w')))
  | (Rejected e, w') => (Rejected e, w')
  end.

(** [queryClient.ensureQueryData]: the data cached under the key, stale or
    invalidated alike, is returned as it is; the fetch runs only when nothing
    is cached under the key. *)
Definition ensureQueryData (server : Server) (q : FetchQueryOptions) (w : World)
    : Outcome JObject * World :=
  match getQuery (fq_queryKey q) (cache w) with
  | Some e => (Resolved (cq_data e), w)
  | None => fetchAndStore server q w
  end.

(** ** Queries ([useQuery]) *)

(** The options a caller may pass to a list or get hook:
    [Omit<UseQueryOptions<...>, 'queryFn' | 'queryKey'>].  The type leaves
    the key and the fetch out, so a caller cannot replace them.  Of the
    remaining options the record carries [enabled]; timing and retry options
    are not represented. *)
Record UseQueryOptions := {
  uq_enabled : option bool;
}.

(** The object a hook hands to [useQuery]. *)
Record QueryObserverOptions := {
  queryFn : Request;
  queryKey : QueryKey;
  enabled : option bool;
}.

(** [{ queryFn, queryKey, ...options }] *)
Definition spreadQueryOptions (fn : Request) (key : QueryKey)
    (options : option UseQueryOptions) : QueryObserverOptions :=
  {| queryFn := fn;
     queryKey := key;
     enabled := options ≫= uq_enabled |}.

(** What [useQuery] returns, once the query has settled. *)
Record QueryResult := {
  data : option JObject;
  isPending : bool;
  isError : bool;
  error : option FetchError;
}.

Definition successResult (d : JObject) : QueryResult :=
  {| data := Some d; isPending := false; isError := false; error := None |}.

Definition pendingResult : QueryResult :=
  {| data := None; isPending := true; isError := false; error := None |}.

(** A refetch that fails keeps the data that was cached. *)
Definition failedResult (cached : option JObject) (e : FetchError) : QueryResult :=
  {| data := cached; isPending := false; isError := true; error := Some e |}.

(** One mount of an observer, up to the settled result.  Cached data that
    has not been invalidated is read from the cache (it is taken to be
    within the stale time in effect, which lib/query-client, not among the
    sources, configures).  Otherwise a disabled observer shows what is
    cached, and an enabled one runs the fetch (the retry policy is
    lib/query-client's as well; the fetch is run once): a success is stored,
    a failure is reported together with the data that was cached. *)
Definition useQuery (server : Server) (o : QueryObserverOptions) (w : World)
    : QueryResult * World :=
  match freshData (queryKey o) (cache w) with
  | Some d => (successResult d, w)
  | None =>
      let cached := cq_data <$> getQuery (queryKey o) (cache w) in
      match enabled o with
      | Some false =>
          (match cached with
           | Some d => successResult d
           | None => pendingResult
           end, w)
      | _ =>
          match fetchAndStore server
                  {| fq_queryKey := queryKey o; fq_queryFn := queryFn o |} w with
          | (Resolved d, w') => (successResult d, w')
          | (Rejected e, w') => (failedResult cached e, w')
          end
      end
  end.

(** What a list or get hook returns: [{ ...data, ...rest }], the properties
    of the response followed by the remaining properties of the result. *)
Record HookResult := {
  hr_fields : JObject;
  hr_isPending : bool;
  hr_isError : bool;
  hr_error : option FetchError;
}.

Definition spreadResult (r : QueryResult) : HookResult :=
  {| hr_fields := default ∅ (data r);
     hr_isPending := isPending r;
     hr_isError := isError r;
     hr_error := error r |}.

(** ** Mutations ([useMutation]) *)

(** An optional property of an object that is spread: absent, present with
    the value [undefined], or present with a value.  The spread copies a
    present property, [undefined] included. *)
Inductive Property (A : Type) :=
  | Absent
  | Undefined
  | Present (a : A).

Arguments Absent {A}.
Arguments Undefined {A}.
Arguments Present {A} a.

Section Mutation.

(** The type of the variables of the mutation. *)
Context {V : Type}.

(** [onSuccess(data, variables, context)] and [onError(error, variables,
    context)]: callbacks acting on the world (the context is unused). *)
Definition SuccessHandler := JObject -> V -> World -> World.
Definition ErrorHandler := FetchError -> V -> World -> World.

(** The options a caller may pass to a mutation hook; every property is
    optional, the fetch and the callbacks included.  For [mutationFn],
    [None] is the absent property; for [onError], which no hook writes
    before the spread, [None] is an absent or undefined property.  Options
    the hooks do not read themselves ([retry], [onSettled], [onMutate], ...)
    are not represented. *)
Record UseMutationOptions := {
  um_mutationFn : option (V -> Request);
  um_onSuccessProperty : Property SuccessHandler;
  um_onError : option ErrorHandler;
}.

(** [options.onSuccess] as a callback: the function the property holds. *)
Definition um_onSuccess (o : UseMutationOptions) : option SuccessHandler :=
  match um_onSuccessProperty o with
  | Present f => Some f
  | _ => None
  end.

(** The [onSuccess] property that [...options] spreads: none when there are
    no options. *)
Definition onSuccessProperty (options : option UseMutationOptions)
    : Property SuccessHandler :=
  match options with
  | Some o => um_onSuccessProperty o
  | None => Absent
  end.

(** The object a hook hands to [useMutation]. *)
Record MutationObserverOptions := {
  mutationFn : V -> Request;
  onSuccess : option SuccessHandler;
  onError : option ErrorHandler;
}.

(** [{ mutationFn, onSuccess, ...options }]: a property of [options]
    replaces the property of the same name written before the spread, also
    when its value is [undefined]. *)
Definition spreadMutationOptions (fn : V -> Request) (ok : SuccessHandler)
    (options : option UseMutationOptions) : MutationObserverOptions :=
  {| mutationFn := default fn (options ≫= um_mutationFn);
     onSuccess :=
       match onSuccessProperty options with
       | Absent => Some ok
       | Undefined => None
       | Present f => Some f
       end;
     onError := options ≫= um_onError |}.

(** [options?.onSuccess?.(data, variables, context)] *)
Definition callOnSuccess (options : option UseMutationOptions)
    (d : JObject) (variables : V) (w : World) : World :=
  match options ≫= um_onSuccess with
  | Some f => f d variables w
  | None => w
  end.

(** Running the mutation: the fetch, then the callback of the outcome. *)
Definition mutate (server : Server) (o : MutationObserverOptions)
    (variables : V) (w : World) : Outcome JObject * World :=
  match perform server (mutationFn o variables) w with
  | (Resolved d, w') =>
      (Resolved d,
       match onSuccess o with Some f => f d variables w' | None => w' end)
  | (Rejected e, w') =>
      (Rejected e,
       match onError o with Some f => f e variables w' | None => w' end)
  end.

End Mutation.

Arguments UseMutationOptions V : clear implicits.
Arguments MutationObserverOptions V : clear implicits.
Arguments SuccessHandler V : clear implicits.
Arguments ErrorHandler V : clear implicits.

(** ** hooks/api/shipping-profiles *)

Definition useCreateShippingProfile
    (options : option (UseMutationOptions JObject))
    : MutationObserverOptions JObject :=
  spreadMutationOptions
    (fun payload =>
       fetchQuery "/vendor/shipping-profiles" POST None (Some payload))
    (fun d variables w =>
       let w := invalidateQueries (qk_lists shippingProfileQueryKeys) w in
       callOnSuccess options d variables w)
    options.

(** The object [useShippingProfile] hands to [useQuery]. *)
Definition useShippingProfileOptions (id : string) (query : option JObject)
    (options : option UseQueryOptions) : QueryObserverOptions :=
  spreadQueryOptions
    (fetchQuery ("/vendor/shipping-profiles/" +:+ id) GET query None)
    (qk_detail shippingProfileQueryKeys id query)
    options.

Definition useShippingProfile (server : Server) (id : string)
    (query : option JObject) (options : option UseQueryOptions) (w : World)
    : HookResult * World :=
  let '(r, w') := useQuery server (useShippingProfileOptions id query options) w in
  (spreadResult r, w').

(** The object [useShippingProfiles] hands to [useQuery]. *)
Definition useShippingProfilesOptions (query : option JObject)
    (options : option UseQueryOptions) : QueryObserverOptions :=
  spreadQueryOptions
    (fetchQuery "/vendor/shipping-profiles" GET None None)
    (qk_list shippingProfileQueryKeys query)
    options.

Definition useShippingProfiles (server : Server) (query : option JObject)
    (options : option UseQueryOptions) (w : World) : HookResult * World :=
  let '(r, w') := useQuery server (useShippingProfilesOptions query options) w in
  (spreadResult r, w').

Definition useUpdateShippingProfile (id : string)
    (options : option (UseMutationOptions JObject))
    : MutationObserverOptions JObject :=
  spreadMutationOptions
    (fun payload =>
       fetchQuery ("/vendor/shipping-profiles/" +:+ id) POST None (Some payload))
    (fun d variables w =>
       let w := invalidateQueries (qk_detail shippingProfileQueryKeys id None) w in
       let w := invalidateQueries (qk_lists shippingProfileQueryKeys) w in
       callOnSuccess options d variables w)
    options.

Definition useDeleteShippingProfile (id : string)
    (options : option (UseMutationOptions unit))
    : MutationObserverOptions unit :=
  spreadMutationOptions
    (fun _ =>
       fetchQuery ("/vendor/shipping-profiles/" +:+ id) DELETE None None)
    (fun d variables w =>
       let w := invalidateQueries (qk_detail shippingProfileQueryKeys id None) w in
       let w := invalidateQueries (qk_lists shippingProfileQueryKeys) w in
       callOnSuccess options d variables w)
    options.

(** ** The shipping-profile route loader *)

Definition shippingProfileQuery (id : string) : FetchQueryOptions :=
  {| fq_queryKey := qk_detail shippingProfileQueryKeys id None;
     fq_queryFn :=
       fetchQuery ("/vendor/shipping-profiles/" +:+ id) GET None None |}.

(** [params.shipping_profile_id!]: the router always supplies the id of the
    route.  What the code does without it (the assertion does not check, and
    the text "undefined" takes the place of the id) is not modelled: the
    result is [None] on parameters without the id. *)
Definition shippingProfileLoader (server : Server)
    (params : gmap string string) (w : World)
    : option (Outcome JObject * World) :=
  id ← params !! "shipping_profile_id";
  let query := shippingProfileQuery id in
  Some (ensureQueryData server query w).

(** ** The inventory list table *)

Definition PAGE_SIZE : Z := 20.

(** What rendering a component yields: its view, or the value it throws to
    the nearest error boundary. *)
Inductive Rendering (View : Type) :=
  | Rendered (v : View)
  | Threw (e : option FetchError).

Arguments Rendered {View} v.
Arguments Threw {View} e.

(** The properties handed to the data table. *)
Record InventoryTableView := {
  tv_rows : JValue;
  tv_count : option JValue;
  tv_pageSize : Z;
  tv_isLoading : bool;
  tv_queryObject : JObject;
}.

(** The query of the table: [limit], [offset] (when the search parameters
    have one) and [fields]. *)
Definition inventoryQuery (searchParams : option JObject) : JObject :=
  let base : JObject :=
    {[ "limit" := JScalar (SNum PAGE_SIZE);
       "fields" := JScalar (SStr "id,title,sku,*location_levels") ]} in
  match searchParams ≫= (fun p => p !! "offset") with
  | Some off => <["offset" := off]> base
  | None => base
  end.

(** [useInventoryItems] (hooks/api/inventory) and [useInventoryTableQuery]
    are not among the sources: the list hook is a parameter, and so are the
    [raw] and [searchParams] the table query yields. *)
Definition InventoryListTable
    (useInventoryItems : option JObject -> HookResult)
    (raw : JObject) (searchParams : option JObject)
    : Rendering InventoryTableView :=
  let r := useInventoryItems (Some (inventoryQuery searchParams)) in
  let inventory_items := hr_fields r !! "inventory_items" in
  let count := hr_fields r !! "count" in
  let isLoading := hr_isPending r in
  if hr_isError r then Threw (hr_error r)
  else
    Rendered {| tv_rows := default (JArray []) inventory_items;
                tv_count := count;
                tv_pageSize := PAGE_SIZE;
                tv_isLoading := isLoading;
                tv_queryObject := raw |}.

(** ** The edit-store form *)

Module EditStore.

(** What a [catch] clause can receive: an instance of [Error], with its
    message, or any other thrown value. *)
Inductive Thrown :=
  | ErrorInstance (message : string)
  | OtherValue (v : JValue).

(** How the upload promise settles. *)
Inductive Settled (A : Type) :=
  | Fulfilled (a : A)
  | Failed (t : Thrown).

Arguments Fulfilled {A} a.
Arguments Failed {A} t.

(** A file picked in the form. *)
Record Media := {
  media_url : string;
  media_fileName : string;
  media_isThumbnail : bool;
}.

(** A file as the upload endpoint returns it. *)
Record AdminFile := {
  file_id : string;
  file_url : string;
}.

(** [HttpTypes.AdminFile & { isThumbnail: boolean }] *)
Record UploadedMedia := {
  um_file : AdminFile;
  um_isThumbnail : bool;
}.

(** The values of the form ([EditStoreSchema]). *)
Record Values := {
  name : string;
  description : option string;
  phone : option string;
  email : option string;
  media : option (list Media);
}.

(** The seller being edited; [photo] may be missing. *)
Record StoreVendor := {
  seller_name : string;
  seller_description : option string;
  seller_phone : option string;
  seller_email : option string;
  photo : option string;
}.

(** The variables of the update mutation. *)
Record UpdatePayload := {
  p_name : string;
  p_email : option string;
  p_phone : option string;
  p_description : option string;
  p_photo : string;
}.

Inductive Toast :=
  | ToastError (message : string)
  | ToastSuccess (message : string).

(** What the handler acts on: the notifications shown, the update mutations
    sent (oldest first) and whether the drawer was closed. *)
Record FormWorld := {
  toasts : list Toast;
  mutations : list UpdatePayload;
  closed : bool;
}.

Definition toast (t : Toast) (w : FormWorld) : FormWorld :=
  {| toasts := toasts w ++ [t]; mutations := mutations w; closed := closed w |}.

Definition handleSuccess (w : FormWorld) : FormWorld :=
  {| toasts := toasts w; mutations := mutations w; closed := true |}.

Definition send (p : UpdatePayload) (w : FormWorld) : FormWorld :=
  {| toasts := toasts w; mutations := mutations w ++ [p]; closed := closed w |}.

(** [a || b] on strings: [b] unless [a] is a non-empty string. *)
Definition orElse (a : option string) (b : string) : string :=
  match a with
  | Some s => if decide (s = "") then b else s
  | None => b
  end.

(** [values.media?.length] as a condition. *)
Definition hasMedia (v : Values) : option (list Media) :=
  match media v with
  | Some (m :: ms) => Some (m :: ms)
  | _ => None
  end.

(** The [try] block: the upload, with [isThumbnail: false] added to every
    returned file; [uploadedMedia] stays empty when nothing is uploaded. *)
Definition tryUpload (uploadFilesQuery : list Media -> Settled (list AdminFile))
    (values : Values) : Settled (list UploadedMedia) :=
  match hasMedia values with
  | Some ms =>
      match uploadFilesQuery ms with
      | Fulfilled files =>
          Fulfilled
            (map (fun f => {| um_file := f; um_isThumbnail := false |}) files)
      | Failed t => Failed t
      end
  | None => Fulfilled []
  end.

(** The [catch] clause: a notification for an [Error] instance only. *)
Definition catchUpload (t : Thrown) (w : FormWorld) : FormWorld :=
  match t with
  | ErrorInstance message => toast (ToastError message) w
  | OtherValue _ => w
  end.

Definition payloadOf (seller : StoreVendor) (values : Values)
    (uploadedMedia : list UploadedMedia) : UpdatePayload :=
  {| p_name := name values;
     p_email := email values;
     p_phone := phone values;
     p_description := description values;
     p_photo :=
       orElse (file_url ∘ um_file <$> head uploadedMedia)
              (orElse (photo seller) "") |}.

(** The callback handed to [form.handleSubmit].  [uploadFilesQuery]
    (lib/client) and [mutateAsync] (from [useUpdateMe]) are not among the
    sources: the outcomes of the upload and of the update are parameters.
    The outcome of the upload is that of the whole promise chain: the
    [files] of the response, or whatever the request or the reading of the
    response throws. *)
Definition onValid
    (uploadFilesQuery : list Media -> Settled (list AdminFile))
    (mutateAsync : UpdatePayload -> Outcome JObject)
    (seller : StoreVendor) (values : Values) (w : FormWorld)
    : Outcome unit * FormWorld :=
  let '(uploadedMedia, w) :=
    match tryUpload uploadFilesQuery values with
    | Fulfilled ms => (ms, w)
    | Failed t => ([], catchUpload t w)
    end in
  let p := payloadOf seller values uploadedMedia in
  let w := send p w in
  match mutateAsync p with
  | Resolved _ => (Resolved tt, handleSuccess (toast (ToastSuccess "Store updated") w))
  | Rejected e => (Rejected e, toast (ToastError (fe_message e)) w)
  end.

(** [EditStoreSchema], the schema of the form's resolver: a name of at least
    one character and, when there are media, items that pass [MediaSchema];
    the optional strings are optional by their type.  [MediaSchema]
    (products/product-create/constants) is not among the sources and is a
    parameter. *)
Definition EditStoreSchema (MediaSchema : Media -> bool) (values : Values)
    : bool :=
  bool_decide (1 <= String.length (name values))
  && match media values with
     | Some ms => forallb MediaSchema ms
     | None => true
     end.

(** The submit handler, [form.handleSubmit(onValid)]: the callback runs only
    for values that pass the resolver; otherwise the form keeps the errors
    and nothing else happens. *)
Definition handleSubmit (MediaSchema : Media -> bool)
    (uploadFilesQuery : list Media -> Settled (list AdminFile))
    (mutateAsync : UpdatePayload -> Outcome JObject)
    (seller : StoreVendor) (values : Values) (w : FormWorld)
    : Outcome unit * FormWorld :=
  if EditStoreSchema MediaSchema values
  then onValid uploadFilesQuery mutateAsync seller values w
  else (Resolved tt, w).

End EditStore.

(** ** The media field of the edit-store form *)

(** [Array.prototype.join] on strings. *)
Fixpoint Array_join (sep : string) (l : list string) : string :=
  match l with
  | [] => ""
  | x :: rest =>
      match rest with
      | [] => x
      | _ => x +:+ sep +:+ Array_join sep rest
      end
  end.

Module MediaField.

Definition SUPPORTED_FORMATS : list string :=
  [ "image/jpeg"; "image/png"; "image/gif"; "image/webp"; "image/heic";
    "image/svg+xml" ].

Definition SUPPORTED_FORMATS_FILE_EXTENSIONS : list string :=
  [ ".jpeg"; ".png"; ".gif"; ".webp"; ".heic"; ".svg" ].

(** The browser's [File], as far as the form reads it. *)
Record File := {
  file_name : string;
  file_type : string;
}.

(** [FileType] of components/common/file-upload: an uploaded file with its
    preview. *)
Record FileType := {
  id : string;
  url : string;
  file : File;
}.

(** [{ ...files[0], isThumbnail: false }]: the properties of the first file,
    none when there is no first file, and the flag. *)
Record MediaItem := {
  item_file : option FileType;
  item_isThumbnail : bool;
}.

(** A translated message: the key and the values interpolated into it. *)
Record Message := {
  msg_key : string;
  msg_name : string;
  msg_types : string;
}.

Record FieldError := {
  err_type : string;
  err_message : Message;
}.

(** The state of the form library for the [media] field: its value and
    its error. *)
Record Form := {
  media : list MediaItem;
  mediaError : option FieldError;
}.

Definition setError (e : FieldError) (form : Form) : Form :=
  {| media := media form; mediaError := Some e |}.

Definition clearErrors (form : Form) : Form :=
  {| media := media form; mediaError := None |}.

Definition setValue (v : list MediaItem) (form : Form) : Form :=
  {| media := v; mediaError := mediaError form |}.

(** [!SUPPORTED_FORMATS.includes(f.file.type)] *)
Definition unsupported (f : FileType) : bool :=
  negb (bool_decide (file_type (file f) ∈ SUPPORTED_FORMATS)).

Definition hasInvalidFiles (fileList : list FileType) (form : Form)
    : bool * Form :=
  match find unsupported fileList with
  | Some invalidFile =>
      (true,
       setError
         {| err_type := "invalid_file";
            err_message :=
              {| msg_key := "products.media.invalidFileType";
                 msg_name := file_name (file invalidFile);
                 msg_types := Array_join ", " SUPPORTED_FORMATS_FILE_EXTENSIONS |} |}
         form)
  | None => (false, form)
  end.

Definition onUploaded (files : list FileType) (form : Form) : Form :=
  let form := clearErrors form in
  let '(invalid, form) := hasInvalidFiles files form in
  if invalid then form
  else setValue [ {| item_file := head files; item_isThumbnail := false |} ] form.

End MediaField.

(** ** The variant section of the product page *)

Module VariantSection.

Definition PAGE_SIZE : Z := 10.

(** The parts of the product types ([HttpTypes]) the section reads; a
    property that may be missing, null or undefined is an [option]. *)
Record ProductOption := {
  option_id : string;
  option_title : string;
}.

Record OptionValue := {
  ov_option_id : option string;
  ov_value : string;
}.

Record LocationLevel := {
  level_id : string;
  available_quantity : option Z;
  stock_locations : option (list string);
}.

Record InventoryItem := {
  inventory_id : string;
  location_levels : option (list LocationLevel);
}.

(** An element of [variant.inventory_items]. *)
Record InventoryLink := {
  inventory_item_id : string;
  inventory : option InventoryItem;
}.

Record Variant := {
  variant_id : string;
  variant_title : option string;
  variant_options : option (list OptionValue);
  inventory_items : option (list InventoryLink);
}.

Record Product := {
  product_id : string;
  product_options : option (list ProductOption);
  variants : option (list Variant);
}.

(** *** [optionColumns] *)

Inductive OptionCell :=
  | Dash
  | Badge (value : string).

Record OptionColumn := {
  column_id : string;
  column_header : string;
  column_cell : Variant -> OptionCell;
}.

(** [opt.option_id === option.id] *)
Definition isValueOf (o : ProductOption) (opt : OptionValue) : bool :=
  bool_decide (ov_option_id opt = Some (option_id o)).

Definition optionCell (o : ProductOption) (row : Variant) : OptionCell :=
  match variant_options row ≫= find (isValueOf o) with
  | None => Dash
  | Some variantOpt => Badge (ov_value variantOpt)
  end.

Definition optionColumns (product : Product) : list OptionColumn :=
  match product_options product with
  | None => []
  | Some options =>
      map (fun o => {| column_id := option_id o;
                       column_header := option_title o;
                       column_cell := optionCell o |}) options
  end.

(** *** [getActions] *)

Inductive Icon := PencilSquare | Buildings | Component | Trash.

(** What a click on an action does. *)
Inductive Click :=
  | Navigate (to : string)
  | HandleDelete (id : string) (title : option string).

(** An action of a row; [onClick] receives the row that was clicked. *)
Record Action := {
  icon : Icon;
  label : string;
  onClick : Variant -> Click;
}.

Section Actions.

(** [new URLSearchParams({ id }).toString()], the platform's serializer of
    one [id] parameter. *)
Variable searchParamsOfId : string -> string.

(** [variant.inventory_items?.length || 0] *)
Definition inventoryItemsCount (variant : Variant) : nat :=
  match inventory_items variant with
  | Some items => length items
  | None => 0
  end.

(** [ids.join(',')] where an element may be undefined: it is joined as the
    empty string. *)
Definition joinIds (ids : list (option string)) : string :=
  Array_join "," (map (default "") ids).

Definition getActions (variant : Variant) : list Action * list Action :=
  let mainActions :=
    [ {| icon := PencilSquare; label := "actions.edit";
         onClick := fun row =>
           Navigate ("edit-variant?variant_id=" +:+ variant_id row) |} ] in
  let secondaryActions :=
    [ {| icon := Trash; label := "actions.delete";
         onClick := fun _ =>
           HandleDelete (variant_id variant) (variant_title variant) |} ] in
  let mainActions :=
    match inventory_items variant with
    | None | Some [] => mainActions
    | Some [item] =>
        let inventoryItemLink := "/inventory/" +:+ inventory_item_id item in
        mainActions ++
          [ {| icon := Buildings;
               label := "products.variant.inventory.actions.inventoryItems";
               onClick := fun _ => Navigate inventoryItemLink |} ]
    | Some items =>
        let ids := map (fun i => inventory_id <$> inventory i) items in
        match ids with
        | [] => mainActions
        | _ =>
            let inventoryKitLink :=
              "/inventory?" +:+ searchParamsOfId (joinIds ids) in
            mainActions ++
              [ {| icon := Component;
                   label := "products.variant.inventory.actions.inventoryKit";
                   onClick := fun _ => Navigate inventoryKitLink |} ]
        end
    end in
  (mainActions, secondaryActions).

End Actions.

(** *** [getInventory] *)

(** The translated text of the inventory cell: the key and its values. *)
Inductive InventoryText :=
  | TableItemAvailable (availableCount : Z)
  | TableItem (availableCount : Z) (locationCount : nat).

Record InventorySummary := {
  text : InventoryText;
  hasInventoryKit : bool;
  quantity : Z;
}.

(** [castVariant.inventory_items?.map((i) => i.inventory).filter(Boolean)] *)
Definition presentInventories (variant : Variant)
    : option (list InventoryItem) :=
  match inventory_items variant with
  | Some items => Some (omap (M := list) inventory items)
  | None => None
  end.

(** [variant?.inventory_items?.[0]?.inventory_item_id] *)
Definition firstInventoryItemId (variant : Variant) : option string :=
  match inventory_items variant with
  | Some (i :: _) => Some (inventory_item_id i)
  | _ => None
  end.

(** [location_levels?.[0]] *)
Definition firstLevel (levels : option (list LocationLevel))
    : option LocationLevel :=
  match levels with
  | Some (l :: _) => Some l
  | _ => None
  end.

(** [getInventory]; [useInventoryItemLevels] (hooks/api) is a parameter: the
    location levels it yields for an inventory item id.  The [locations]
    record the source fills in is never read afterwards and is left out. *)
Definition getInventory
    (useInventoryItemLevels : option string -> option (list LocationLevel))
    (variant : Variant) : InventorySummary :=
  let inventoryItems := presentInventories variant in
  let hasInventoryKit :=
    match inventoryItems with
    | Some items => bool_decide (1 < length items)
    | None => false
    end in
  let location_levels :=
    useInventoryItemLevels (firstInventoryItemId variant) in
  let quantity : Z :=
    match firstLevel location_levels with
    | Some l => default 0%Z (available_quantity l)
    | None => 0%Z
    end in
  let locationCount : nat :=
    match firstLevel location_levels with
    | Some l =>
        match stock_locations l with
        | Some locations => length locations
        | None => 0
        end
    | None => 0
    end in
  let text :=
    if hasInventoryKit then TableItemAvailable quantity
    else TableItem quantity locationCount in
  {| text := text; hasInventoryKit := hasInventoryKit; quantity := quantity |}.

(** The inventory cell: the kit icon and the error colour of the text. *)
Record InventoryCell := {
  cell_text : InventoryText;
  cell_kitIcon : bool;
  cell_error : bool;
}.

Definition inventoryCell
    (useInventoryItemLevels : option string -> option (list LocationLevel))
    (row : Variant) : InventoryCell :=
  let s := getInventory useInventoryItemLevels row in
  {| cell_text := text s;
     cell_kitIcon := hasInventoryKit s;
     cell_error := bool_decide (quantity s = 0%Z) |}.

End VariantSection.

(** ** Sample data used in the scenarios below *)

(** A backend that answers every request with an empty record. *)
Definition okServer : Server := fun _ => Resolved ∅.

(** A backend that answers every request with a 404. *)
Definition notFound : FetchError := {| fe_status := 404; fe_message := "Not Found" |}.

Definition failingServer : Server := fun _ => Rejected notFound.

(** A subscribed, fresh cache entry under [key]. *)
Definition watchedEntry (key : QueryKey) : CachedQuery :=
  {| cq_key := key; cq_data := ∅; cq_isInvalidated := false;
     cq_observers := 1; cq_fetching := false |}.

Definition pageQuery : JObject := {[ "limit" := JScalar (SNum 20) ]}.

(** A cache holding a list page, the bare list and the details of two
    shipping profiles. *)
Definition sampleWorld : World :=
  {| cache :=
       [ watchedEntry (qk_list shippingProfileQueryKeys (Some pageQuery));
         watchedEntry (qk_list shippingProfileQueryKeys None);
         watchedEntry (qk_detail shippingProfileQueryKeys "sp_1" None);
         watchedEntry (qk_detail shippingProfileQueryKeys "sp_2" None) ];
     sent := [] |}.

(** Caller options whose only property is an [onSuccess] that does nothing. *)
Definition onlyOnSuccess {V : Type} : option (UseMutationOptions V) :=
  Some {| um_mutationFn := None;
          um_onSuccessProperty := Present (fun _ _ w => w);
          um_onError := None |}.

(** The notification with which the update mutation settles. *)
Definition settleToast (o : Outcome JObject) : EditStore.Toast :=
  match o with
  | Resolved _ => EditStore.ToastSuccess "Store updated"
  | Rejected e => EditStore.ToastError (fe_message e)
  end.

(** The message of the media error for the file named [n]. *)
Definition invalidFileError (n : string) : MediaField.FieldError :=
  {| MediaField.err_type := "invalid_file";
     MediaField.err_message :=
       {| MediaField.msg_key := "products.media.invalidFileType";
          MediaField.msg_name := n;
          MediaField.msg_types := ".jpeg, .png, .gif, .webp, .heic, .svg" |} |}.

(** * Properties *)

(** ** The query-key factory *)

Lemma strict_prefix_cons (k : QueryKey) (x : KeyPart) (rest : QueryKey) :
  strict_prefix k (k ++ x :: rest).
Proof.
  split.
  - by apply prefix_app_r.
  - intros Heq. apply (f_equal length) in Heq.
    rewrite length_app in Heq. simpl in Heq. lia.
Qed.

Lemma strict_prefix_irrefl (k : QueryKey) : ~ strict_prefix k k.
Proof. by intros [_ Hne]. Qed.

Lemma matchesKey_true (f k : QueryKey) :
  matchesKey f k = true <-> f `prefix_of` k.
Proof. unfold matchesKey. by rewrite bool_decide_eq_true. Qed.

Lemma matchesKey_app (f rest : QueryKey) : matchesKey f (f ++ rest) = true.
Proof. apply matchesKey_true. by apply prefix_app_r. Qed.

(** Two keys that differ at a position of the filter do not match. *)
Lemma matchesKey_mismatch (pre : QueryKey) (a b : KeyPart) (f k : QueryKey) :
  a <> b -> matchesKey (pre ++ a :: f) (pre ++ b :: k) = false.
Proof.
  intros Hne. unfold matchesKey. apply bool_decide_eq_false.
  intros Hp. apply prefix_app_inv in Hp.
  destruct Hp as [tl Htl]. simpl in Htl. congruence.
Qed.

(** C5, as the claim states it, fails where the query is left out: the key
    of a list without parameters is the [lists()] key itself, hence not a
    strict extension of it. *)
Lemma lists_not_strict_prefix_of_bare_list :
  ~ strict_prefix (qk_lists shippingProfileQueryKeys)
                  (qk_list shippingProfileQueryKeys None).
Proof. apply strict_prefix_irrefl. Qed.

(** C5 (amended): for every resource tag, every optional query [q] and every
    id, [lists()] is an array-prefix of [list(q)], a strict one exactly when
    [q] is given, and [details()] is a strict array-prefix of
    [detail(id, q)]; so a prefix match on [lists()] or [details()] reaches
    every list key and every detail key. *)
Theorem key_prefix_hierarchy (tag : string) (q : option JObject) (id : string) :
  let K := queryKeysFactory tag in
  qk_lists K `prefix_of` qk_list K q
  /\ (strict_prefix (qk_lists K) (qk_list K q) <-> is_Some q)
  /\ strict_prefix (qk_details K) (qk_detail K id q)
  /\ matchesKey (qk_lists K) (qk_list K q) = true
  /\ matchesKey (qk_details K) (qk_detail K id q) = true.
Proof.
  cbn zeta. split; [| split; [| split; [| split]]].
  - by apply prefix_app_r.
  - destruct q as [o |]; cbn [qk_lists qk_list queryKeysFactory optPart].
    + split; [by eauto |]. intros _. apply strict_prefix_cons.
    + rewrite app_nil_r. split.
      * intros H. by apply strict_prefix_irrefl in H.
      * intros H. by apply is_Some_None in H.
  - apply strict_prefix_cons.
  - apply matchesKey_app.
  - apply matchesKey_app.
Qed.

(** C6: the keys of two lists are equal exactly when their queries are:
    distinct queries give distinct keys, and structurally identical queries
    give value-equal keys. *)
Theorem list_key_injective (tag : string) (q1 q2 : option JObject) :
  qk_list (queryKeysFactory tag) q1 = qk_list (queryKeysFactory tag) q2
  <-> q1 = q2.
Proof.
  split; [| by intros ->].
  cbn [qk_list queryKeysFactory]. intros H. apply app_inv_head in H.
  destruct q1, q2; simpl in H; congruence.
Qed.

(** C8: [shippingProfileQueryKeys.detail("sp_1", {expand: "a"})] is the key
    [["shipping_profile", "detail", "sp_1", {expand: "a"}]]. *)
Theorem detail_key_scenario :
  qk_detail shippingProfileQueryKeys "sp_1"
    (Some {[ "expand" := JScalar (SStr "a") ]})
  = [KStr "shipping_profile"; KStr "detail"; KStr "sp_1";
     KObj {[ "expand" := JScalar (SStr "a") ]}].
Proof. reflexivity. Qed.

(** ** The cache store *)

Lemma invalidateEntries_lookup (f : QueryKey) (c : list CachedQuery) (i : nat) :
  invalidateEntries f c !! i
  = (fun e => if matchesKey f (cq_key e) then markStale e else e) <$> c !! i.
Proof. unfold invalidateEntries. apply list_lookup_fmap. Qed.

Lemma invalidateEntries_hit (f : QueryKey) (c : list CachedQuery) (i : nat)
    (e : CachedQuery) :
  c !! i = Some e -> matchesKey f (cq_key e) = true ->
  invalidateEntries f c !! i = Some (markStale e).
Proof. intros Hi Hm. rewrite invalidateEntries_lookup, Hi. simpl. by rewrite Hm. Qed.

Lemma invalidateEntries_miss (f : QueryKey) (c : list CachedQuery) (i : nat)
    (e : CachedQuery) :
  c !! i = Some e -> matchesKey f (cq_key e) = false ->
  invalidateEntries f c !! i = Some e.
Proof. intros Hi Hm. rewrite invalidateEntries_lookup, Hi. simpl. by rewrite Hm. Qed.

Lemma markStale_idemp (e : CachedQuery) : markStale (markStale e) = markStale e.
Proof.
  destruct e as [k d inv obs f]. unfold markStale. simpl.
  destruct (decide (obs = 0)); reflexivity.
Qed.

Lemma getQuery_Some (key : QueryKey) (c : list CachedQuery) (e : CachedQuery) :
  getQuery key c = Some e -> cq_key e = key.
Proof.
  unfold getQuery. intros H. apply find_some in H as [_ H].
  unfold hasKey in H. by apply bool_decide_eq_true in H.
Qed.

Lemma freshData_setQueryData (key : QueryKey) (d : JObject)
    (c : list CachedQuery) :
  freshData key (setQueryData key d c) = Some d.
Proof.
  unfold freshData, setQueryData.
  destruct (getQuery key c) as [e0 |] eqn:Hget.
  - assert (Hfind : exists e, getQuery key c = Some e) by eauto.
    clear Hget e0. unfold getQuery in *.
    induction c as [| e c IH]; simpl in *.
    + destruct Hfind as [e He]. discriminate.
    + destruct (hasKey key e) eqn:Hk.
      * simpl. unfold hasKey in Hk |- *. simpl.
        rewrite Hk. reflexivity.
      * simpl. rewrite Hk. apply IH. exact Hfind.
  - unfold getQuery in *.
    induction c as [| e c IH]; simpl in *.
    + unfold hasKey. simpl. by rewrite bool_decide_eq_true_2.
    + destruct (hasKey key e) eqn:Hk; [discriminate |]. apply IH. exact Hget.
Qed.

Lemma freshData_Some (key : QueryKey) (c : list CachedQuery) (d : JObject) :
  freshData key c = Some d <->
  exists e, getQuery key c = Some e /\ cq_data e = d /\ cq_isInvalidated e = false.
Proof.
  unfold freshData. destruct (getQuery key c) as [e |].
  - destruct (cq_isInvalidated e) eqn:Hinv; split.
    + discriminate.
    + intros (e' & [= <-] & _ & Hf). congruence.
    + intros [= <-]. by exists e.
    + intros (e' & [= <-] & <- & _). reflexivity.
  - split; [discriminate |]. intros (e' & He & _). discriminate.
Qed.

(** After [ensureQueryData] resolves, the key holds the resolved data. *)
Lemma ensureQueryData_cached (server : Server) (q : FetchQueryOptions)
    (w w' : World) (d : JObject) :
  ensureQueryData server q w = (Resolved d, w') ->
  cq_data <$> getQuery (fq_queryKey q) (cache w') = Some d.
Proof.
  unfold ensureQueryData.
  destruct (getQuery (fq_queryKey q) (cache w)) as [e0 |] eqn:Hg.
  - intros [= <- <-]. by rewrite Hg.
  - unfold fetchAndStore, perform.
    destruct (server (fq_queryFn q)) as [d1 | e]; [| discriminate].
    intros [= <- <-]. simpl.
    pose proof (freshData_setQueryData (fq_queryKey q) d1 (cache w)) as Hf.
    apply freshData_Some in Hf as (e & -> & <- & _). reflexivity.
Qed.

(** ** Mutation hooks *)

Lemma mutate_resolved {V : Type} (server : Server)
    (o : MutationObserverOptions V) (v : V) (w w' : World) (d : JObject) :
  mutate server o v w = (Resolved d, w') ->
  server (mutationFn o v) = Resolved d
  /\ w' = match onSuccess o with
          | Some f => f d v (snd (perform server (mutationFn o v) w))
          | None => snd (perform server (mutationFn o v) w)
          end.
Proof.
  unfold mutate, perform. simpl.
  destruct (server (mutationFn o v)) as [d0 | e]; [| discriminate].
  intros [= <- <-]. by destruct (onSuccess o).
Qed.

Lemma lists_misses_detail_keys (rest : QueryKey) :
  matchesKey (qk_lists shippingProfileQueryKeys)
             (qk_details shippingProfileQueryKeys ++ rest) = false.
Proof.
  apply (matchesKey_mismatch [KStr SHIPPING_PROFILE_QUERY_KEY]
           (KStr "list") (KStr "detail") [] rest).
  discriminate.
Qed.

Lemma detail_misses_other_ids (x y : string) (rest : QueryKey) :
  y <> x ->
  matchesKey (qk_detail shippingProfileQueryKeys x None)
             (qk_details shippingProfileQueryKeys ++ KStr y :: rest) = false.
Proof.
  intros Hne.
  apply (matchesKey_mismatch (qk_details shippingProfileQueryKeys)
           (KStr x) (KStr y) [] rest).
  congruence.
Qed.

(** Options without an [onSuccess] property have no [onSuccess] callback. *)
Lemma absent_no_callback {V : Type} (options : option (UseMutationOptions V)) :
  onSuccessProperty options = Absent -> options ≫= um_onSuccess = None.
Proof.
  destruct options as [o |]; [| reflexivity]. simpl.
  unfold um_onSuccess. by intros ->.
Qed.

(** The callback of the options is the function their property holds. *)
Lemma callback_is_present {V : Type} (options : option (UseMutationOptions V))
    (f : SuccessHandler V) :
  options ≫= um_onSuccess = Some f <-> onSuccessProperty options = Present f.
Proof.
  destruct options as [o |]; simpl; [| split; discriminate].
  unfold um_onSuccess. destruct (um_onSuccessProperty o); split; congruence.
Qed.

(** The invalidation of the create hook, when the caller's options have no
    [onSuccess] property. *)
Lemma create_invalidation (server : Server)
    (options : option (UseMutationOptions JObject)) (payload d : JObject)
    (w w' : World) :
  onSuccessProperty options = Absent ->
  mutate server (useCreateShippingProfile options) payload w = (Resolved d, w') ->
  cache w' = invalidateEntries (qk_lists shippingProfileQueryKeys) (cache w).
Proof.
  intros Hno Hm. apply mutate_resolved in Hm as [_ ->].
  unfold useCreateShippingProfile, spreadMutationOptions.
  cbn [onSuccess]. rewrite Hno.
  unfold callOnSuccess. by rewrite (absent_no_callback _ Hno).
Qed.

(** With no [onSuccess] property in the caller's options, a successful create
    marks every entry under
    [lists()] stale and leaves every entry under [details()] as it was. *)
Lemma create_marks_lists_only (server : Server)
    (options : option (UseMutationOptions JObject)) (payload d : JObject)
    (w w' : World) (i : nat) (e : CachedQuery) :
  onSuccessProperty options = Absent ->
  mutate server (useCreateShippingProfile options) payload w = (Resolved d, w') ->
  cache w !! i = Some e ->
  (qk_lists shippingProfileQueryKeys `prefix_of` cq_key e ->
   cache w' !! i = Some (markStale e))
  /\ (qk_details shippingProfileQueryKeys `prefix_of` cq_key e ->
      cache w' !! i = Some e).
Proof.
  intros Hno Hm Hi. rewrite (create_invalidation _ _ _ _ _ _ Hno Hm). split.
  - intros Hp. apply invalidateEntries_hit; [done |]. by apply matchesKey_true.
  - intros [rest Hrest]. apply invalidateEntries_miss; [done |].
    rewrite Hrest. apply lists_misses_detail_keys.
Qed.

(** C1 (the code at the failing input): the caller passes options with an
    [onSuccess]; the create request succeeds, the caller's callback takes the
    place of the hook's, and the cached list entries (the page and the bare
    list) are still fresh, not invalidated. *)
Theorem create_caller_onSuccess_drops_invalidation :
  let '(r, w') :=
    mutate okServer (useCreateShippingProfile onlyOnSuccess) ∅ sampleWorld in
  r = Resolved ∅
  /\ cache w' = cache sampleWorld
  /\ (cq_isInvalidated <$>
        getQuery (qk_list shippingProfileQueryKeys (Some pageQuery)) (cache w'))
     = Some false
  /\ (cq_isInvalidated <$>
        getQuery (qk_list shippingProfileQueryKeys None) (cache w'))
     = Some false.
Proof. vm_compute. repeat split. Qed.

(** The invalidation of the update hook, when the caller's options carry no
    [onSuccess] of their own. *)
Lemma update_invalidation (server : Server) (id : string)
    (options : option (UseMutationOptions JObject)) (payload d : JObject)
    (w w' : World) :
  onSuccessProperty options = Absent ->
  mutate server (useUpdateShippingProfile id options) payload w = (Resolved d, w') ->
  cache w' =
    invalidateEntries (qk_lists shippingProfileQueryKeys)
      (invalidateEntries (qk_detail shippingProfileQueryKeys id None) (cache w)).
Proof.
  intros Hno Hm. apply mutate_resolved in Hm as [_ ->].
  unfold useUpdateShippingProfile, spreadMutationOptions.
  cbn [onSuccess]. rewrite Hno.
  unfold callOnSuccess. by rewrite (absent_no_callback _ Hno).
Qed.

Lemma delete_invalidation (server : Server) (id : string)
    (options : option (UseMutationOptions unit)) (d : JObject)
    (w w' : World) :
  onSuccessProperty options = Absent ->
  mutate server (useDeleteShippingProfile id options) tt w = (Resolved d, w') ->
  cache w' =
    invalidateEntries (qk_lists shippingProfileQueryKeys)
      (invalidateEntries (qk_detail shippingProfileQueryKeys id None) (cache w)).
Proof.
  intros Hno Hm. apply mutate_resolved in Hm as [_ ->].
  unfold useDeleteShippingProfile, spreadMutationOptions.
  cbn [onSuccess]. rewrite Hno.
  unfold callOnSuccess. by rewrite (absent_no_callback _ Hno).
Qed.

Lemma invalidateEntries_twice_hit (f1 f2 : QueryKey) (c : list CachedQuery)
    (i : nat) (e : CachedQuery) :
  c !! i = Some e ->
  matchesKey f1 (cq_key e) = true \/ matchesKey f2 (cq_key e) = true ->
  invalidateEntries f2 (invalidateEntries f1 c) !! i = Some (markStale e).
Proof.
  intros Hi Hp.
  rewrite invalidateEntries_lookup, invalidateEntries_lookup, Hi. simpl.
  destruct (matchesKey f1 (cq_key e)) eqn:H1.
  - simpl. destruct (matchesKey f2 (cq_key e)); [by rewrite markStale_idemp | done].
  - destruct Hp as [Hp | Hp]; [congruence |]. by rewrite Hp.
Qed.

(** Both invalidations together mark every entry under [detail(id)] and
    every entry under [lists()] stale. *)
Lemma detail_and_lists_marked (id : string) (c : list CachedQuery) (i : nat)
    (e : CachedQuery) :
  c !! i = Some e ->
  (qk_detail shippingProfileQueryKeys id None `prefix_of` cq_key e
   \/ qk_lists shippingProfileQueryKeys `prefix_of` cq_key e) ->
  invalidateEntries (qk_lists shippingProfileQueryKeys)
    (invalidateEntries (qk_detail shippingProfileQueryKeys id None) c) !! i
  = Some (markStale e).
Proof.
  intros Hi Hp. apply invalidateEntries_twice_hit; [done |].
  by rewrite !matchesKey_true.
Qed.

(** With no [onSuccess] property in the caller's options, a successful update
    marks the entries under
    [detail(id)] and under [lists()] stale. *)
Lemma update_marks_detail_and_lists (server : Server) (id : string)
    (options : option (UseMutationOptions JObject)) (payload d : JObject)
    (w w' : World) (i : nat) (e : CachedQuery) :
  onSuccessProperty options = Absent ->
  mutate server (useUpdateShippingProfile id options) payload w = (Resolved d, w') ->
  cache w !! i = Some e ->
  (qk_detail shippingProfileQueryKeys id None `prefix_of` cq_key e
   \/ qk_lists shippingProfileQueryKeys `prefix_of` cq_key e) ->
  cache w' !! i = Some (markStale e).
Proof.
  intros Hno Hm Hi Hp. rewrite (update_invalidation _ _ _ _ _ _ _ Hno Hm).
  by apply detail_and_lists_marked.
Qed.

Lemma delete_marks_detail_and_lists (server : Server) (id : string)
    (options : option (UseMutationOptions unit)) (d : JObject)
    (w w' : World) (i : nat) (e : CachedQuery) :
  onSuccessProperty options = Absent ->
  mutate server (useDeleteShippingProfile id options) tt w = (Resolved d, w') ->
  cache w !! i = Some e ->
  (qk_detail shippingProfileQueryKeys id None `prefix_of` cq_key e
   \/ qk_lists shippingProfileQueryKeys `prefix_of` cq_key e) ->
  cache w' !! i = Some (markStale e).
Proof.
  intros Hno Hm Hi Hp. rewrite (delete_invalidation _ _ _ _ _ _ Hno Hm).
  by apply detail_and_lists_marked.
Qed.

(** With a caller [onSuccess], the handler written in the hook is never the
    one that runs: the world after a successful mutation is the one the
    caller's callback returns, for the create, update and delete hooks. *)
Lemma caller_onSuccess_replaces_handler {V : Type} (server : Server)
    (fn : V -> Request) (ok f : SuccessHandler V)
    (options : option (UseMutationOptions V)) (v : V) (d : JObject)
    (w w' : World) :
  options ≫= um_onSuccess = Some f ->
  mutate server (spreadMutationOptions fn ok options) v w = (Resolved d, w') ->
  w' = f d v {| cache := cache w;
                sent := sent w ++ [default fn (options ≫= um_mutationFn) v] |}.
Proof.
  intros Hf Hm. apply mutate_resolved in Hm as [_ ->].
  apply callback_is_present in Hf.
  unfold spreadMutationOptions. cbn [onSuccess mutationFn]. by rewrite Hf.
Qed.

(** An [onSuccess] property set to [undefined] takes the place of the hook's
    handler just as well: after a successful mutation nothing was
    invalidated, only the request was sent. *)
Lemma undefined_onSuccess_drops_handler {V : Type} (server : Server)
    (fn : V -> Request) (ok : SuccessHandler V)
    (options : option (UseMutationOptions V)) (v : V) (d : JObject)
    (w w' : World) :
  onSuccessProperty options = Undefined ->
  mutate server (spreadMutationOptions fn ok options) v w = (Resolved d, w') ->
  w' = {| cache := cache w;
          sent := sent w ++ [default fn (options ≫= um_mutationFn) v] |}.
Proof.
  intros Hu Hm. apply mutate_resolved in Hm as [_ ->].
  unfold spreadMutationOptions. cbn [onSuccess mutationFn]. by rewrite Hu.
Qed.

(** C2 (the code at the failing input): the caller passes options with an
    [onSuccess]; the update, and likewise the delete, of ["sp_1"] succeeds
    and neither the [detail("sp_1")] entry nor the list entries are
    invalidated. *)
Theorem update_delete_caller_onSuccess_drops_invalidation :
  let probe (w : World) :=
    (cq_isInvalidated <$>
       getQuery (qk_detail shippingProfileQueryKeys "sp_1" None) (cache w),
     cq_isInvalidated <$>
       getQuery (qk_list shippingProfileQueryKeys (Some pageQuery)) (cache w)) in
  let '(r1, w1) :=
    mutate okServer (useUpdateShippingProfile "sp_1" onlyOnSuccess) ∅ sampleWorld in
  let '(r2, w2) :=
    mutate okServer (useDeleteShippingProfile "sp_1" onlyOnSuccess) tt sampleWorld in
  r1 = Resolved ∅ /\ probe w1 = (Some false, Some false)
  /\ r2 = Resolved ∅ /\ probe w2 = (Some false, Some false).
Proof. vm_compute. repeat split. Qed.

(** C7: after a successful update of [x], an entry under [details()] whose
    id differs from [x] is exactly what it was (not stale, not refetching),
    whenever the caller's own [onSuccess], if there is one, leaves it alone. *)
Theorem update_leaves_other_details (server : Server) (x : string)
    (options : option (UseMutationOptions JObject)) (payload d : JObject)
    (w w' : World) (i : nat) (e : CachedQuery) (y : string) (rest : QueryKey) :
  mutate server (useUpdateShippingProfile x options) payload w = (Resolved d, w') ->
  (forall f, options ≫= um_onSuccess = Some f ->
     forall d0 v0 w0, cache (f d0 v0 w0) !! i = cache w0 !! i) ->
  cache w !! i = Some e ->
  cq_key e = qk_details shippingProfileQueryKeys ++ KStr y :: rest ->
  y <> x ->
  cache w' !! i = Some e.
Proof.
  intros Hm Hcb Hi Hkey Hne.
  destruct (onSuccessProperty options) as [| | f] eqn:Hf.
  - rewrite (update_invalidation _ _ _ _ _ _ _ Hf Hm).
    apply invalidateEntries_miss.
    + apply invalidateEntries_miss; [done |].
      rewrite Hkey. by apply detail_misses_other_ids.
    + rewrite Hkey. apply lists_misses_detail_keys.
  - unfold useUpdateShippingProfile in Hm.
    by rewrite (undefined_onSuccess_drops_handler _ _ _ _ _ _ _ _ Hf Hm).
  - apply callback_is_present in Hf.
    unfold useUpdateShippingProfile in Hm.
    rewrite (caller_onSuccess_replaces_handler _ _ _ _ _ _ _ _ _ Hf Hm).
    rewrite (Hcb f Hf). exact Hi.
Qed.

Lemma update_leaves_other_details_witness :
  cache (snd (mutate okServer (useUpdateShippingProfile "sp_1" None) ∅ sampleWorld))
    !! 3
  = Some (watchedEntry (qk_detail shippingProfileQueryKeys "sp_2" None)).
Proof.
  eapply (update_leaves_other_details okServer "sp_1" None ∅ ∅ sampleWorld
            _ 3 _ "sp_2" []).
  - vm_compute. reflexivity.
  - intros f Hf. discriminate Hf.
  - reflexivity.
  - reflexivity.
  - discriminate.
Defined.

(** ** List and get hooks *)

(** With nothing fresh under its key and unless it is disabled, [useQuery]
    sends the fetch of its options; a rejection shows in the result, next to
    the data that was cached, and the cache is left as it was. *)
Lemma useQuery_fetch_fails (server : Server) (o : QueryObserverOptions)
    (w : World) (e : FetchError) :
  freshData (queryKey o) (cache w) = None ->
  enabled o <> Some false ->
  server (queryFn o) = Rejected e ->
  useQuery server o w
  = (failedResult (cq_data <$> getQuery (queryKey o) (cache w)) e,
     {| cache := cache w; sent := sent w ++ [queryFn o] |}).
Proof.
  intros Hf Hen Hfail. unfold useQuery. rewrite Hf.
  destruct (enabled o) as [[|] |]; [| congruence |];
    unfold fetchAndStore, perform; cbn [fq_queryFn fq_queryKey];
    by rewrite Hfail.
Qed.

(** The request of the list hook never carries query parameters. *)
Lemma list_request_has_no_query (query : option JObject)
    (options : option UseQueryOptions) :
  queryFn (useShippingProfilesOptions query options)
  = {| req_path := "/vendor/shipping-profiles"; req_method := GET;
       req_query := None; req_body := None |}.
Proof. reflexivity. Qed.

(** C3 (the code at the failing input): the list hook called with
    [{limit: 20}] on an empty cache files its result under [list({limit: 20})]
    and issues one request, [GET /vendor/shipping-profiles], whose
    query-parameter object is absent, whereas the get-one hook called with
    the same query sends it along. *)
Theorem list_hook_drops_query :
  let empty := {| cache := []; sent := [] |} in
  let w1 := snd (useShippingProfiles okServer (Some pageQuery) None empty) in
  let w2 := snd (useShippingProfile okServer "sp_1" (Some pageQuery) None empty) in
  sent w1 = [ {| req_path := "/vendor/shipping-profiles"; req_method := GET;
                 req_query := None; req_body := None |} ]
  /\ cq_key <$> cache w1 = [qk_list shippingProfileQueryKeys (Some pageQuery)]
  /\ req_query <$> sent w1 <> [Some pageQuery]
  /\ req_query <$> sent w2 = [Some pageQuery].
Proof. vm_compute. repeat split. discriminate. Qed.

(** ** The route loader *)



(** With a query of its own the hook uses another key than the loader. *)
Lemma loader_key_differs_with_query (id : string) (q : JObject)
    (options : option UseQueryOptions) :
  queryKey (useShippingProfileOptions id (Some q) options)
  <> fq_queryKey (shippingProfileQuery id).
Proof.
  cbn. intros H. apply (f_equal length) in H. discriminate.
Qed.

(** ** Errors of list and get hooks *)

(** C9: when nothing fresh is cached for it and it is not disabled, the
    list hook, and likewise the get hook, sends its request, and when that
    request fails the hook returns [isError = true] with the fetch error as
    [error], for every caller option; and the inventory list table, given a
    list-hook result in that state, throws that error instead of
    rendering. *)
Theorem fetch_errors_are_exposed :
  (forall server query options w e,
      freshData (qk_list shippingProfileQueryKeys query) (cache w) = None ->
      options ≫= uq_enabled <> Some false ->
      server (fetchQuery "/vendor/shipping-profiles" GET None None) = Rejected e ->
      let '(res, w') := useShippingProfiles server query options w in
      hr_isError res = true /\ hr_error res = Some e
      /\ sent w' = sent w ++ [fetchQuery "/vendor/shipping-profiles" GET None None])
  /\ (forall server id query options w e,
      freshData (qk_detail shippingProfileQueryKeys id query) (cache w) = None ->
      options ≫= uq_enabled <> Some false ->
      server (fetchQuery ("/vendor/shipping-profiles/" +:+ id) GET query None)
        = Rejected e ->
      let '(res, w') := useShippingProfile server id query options w in
      hr_isError res = true /\ hr_error res = Some e
      /\ sent w'
         = sent w ++ [fetchQuery ("/vendor/shipping-profiles/" +:+ id) GET query None])
  /\ (forall useInventoryItems raw searchParams e,
      hr_isError (useInventoryItems (Some (inventoryQuery searchParams))) = true ->
      hr_error (useInventoryItems (Some (inventoryQuery searchParams))) = Some e ->
      InventoryListTable useInventoryItems raw searchParams = Threw (Some e)).
Proof.
  split; [| split].
  - intros server query options w e Hf Hen Hfail.
    unfold useShippingProfiles.
    rewrite (useQuery_fetch_fails server
               (useShippingProfilesOptions query options) w e Hf Hen Hfail).
    done.
  - intros server id query options w e Hf Hen Hfail.
    unfold useShippingProfile.
    rewrite (useQuery_fetch_fails server
               (useShippingProfileOptions id query options) w e Hf Hen Hfail).
    done.
  - intros hook raw sp e Herr He.
    unfold InventoryListTable. cbn zeta. by rewrite Herr, He.
Qed.

Lemma fetch_errors_are_exposed_witness :
  let stale :=
    snd (mutate okServer (useUpdateShippingProfile "sp_1" None) ∅ sampleWorld) in
  let list := useShippingProfiles failingServer (Some pageQuery) None stale in
  let one := useShippingProfile failingServer "sp_1" None None stale in
  (hr_isError (fst list) = true /\ hr_error (fst list) = Some notFound
   /\ length (sent (snd list)) = 2)
  /\ (hr_isError (fst one) = true /\ hr_error (fst one) = Some notFound
      /\ length (sent (snd one)) = 2)
  /\ InventoryListTable
       (fun q => fst (useShippingProfiles failingServer q None stale)) ∅ None
     = Threw (Some notFound).
Proof.
  intros stale list one. split; [| split].
  - pose proof (proj1 fetch_errors_are_exposed failingServer (Some pageQuery)
                  None stale notFound eq_refl ltac:(discriminate) eq_refl) as H.
    fold list in H. destruct list as [res w'].
    destruct H as (H1 & H2 & H3). repeat split; [exact H1 | exact H2 |].
    cbn [snd]. rewrite H3. reflexivity.
  - pose proof (proj1 (proj2 fetch_errors_are_exposed) failingServer "sp_1" None
                  None stale notFound eq_refl ltac:(discriminate) eq_refl) as H.
    fold one in H. destruct one as [res w'].
    destruct H as (H1 & H2 & H3). repeat split; [exact H1 | exact H2 |].
    cbn [snd]. rewrite H3. reflexivity.
  - refine (proj2 (proj2 fetch_errors_are_exposed) _ ∅ None notFound _ _);
      vm_compute; reflexivity.
Defined.

(** ** The submit handler of the edit-store form *)

Lemma orElse_default (a : option string) : EditStore.orElse a "" = default "" a.
Proof.
  destruct a as [s |]; [| reflexivity]. unfold EditStore.orElse.
  by destruct (decide (s = "")) as [-> |].
Qed.

(** For values that pass the resolver the handler is its callback. *)
Lemma handleSubmit_valid (MediaSchema : EditStore.Media -> bool)
    (uploadFilesQuery : list EditStore.Media -> EditStore.Settled (list EditStore.AdminFile))
    (mutateAsync : EditStore.UpdatePayload -> Outcome JObject)
    (seller : EditStore.StoreVendor) (values : EditStore.Values)
    (w : EditStore.FormWorld) :
  EditStore.EditStoreSchema MediaSchema values = true ->
  EditStore.handleSubmit MediaSchema uploadFilesQuery mutateAsync seller values w
  = EditStore.onValid uploadFilesQuery mutateAsync seller values w.
Proof. intros Hv. unfold EditStore.handleSubmit. by rewrite Hv. Qed.

(** C10, as the claim states it, fails for a thrown value that is not an
    [Error] instance: the form is valid, the upload rejects with the string
    ["offline"], the update is sent with the seller's photo, and the only
    notification is the success of the update; the failure of the upload is
    not shown. *)
Lemma upload_failure_not_always_notified :
  let values :=
    {| EditStore.name := "Shop"; EditStore.description := None;
       EditStore.phone := None; EditStore.email := None;
       EditStore.media :=
         Some [ {| EditStore.media_url := "blob:1";
                   EditStore.media_fileName := "logo.png";
                   EditStore.media_isThumbnail := false |} ] |} in
  let seller :=
    {| EditStore.seller_name := "Shop"; EditStore.seller_description := None;
       EditStore.seller_phone := None; EditStore.seller_email := None;
       EditStore.photo := Some "https://cdn/old.png" |} in
  let w0 :=
    {| EditStore.toasts := []; EditStore.mutations := [];
       EditStore.closed := false |} in
  let w :=
    snd (EditStore.handleSubmit (fun _ => true)
           (fun _ => EditStore.Failed (EditStore.OtherValue (JScalar (SStr "offline"))))
           (fun _ => Resolved ∅) seller values w0) in
  EditStore.toasts w = [EditStore.ToastSuccess "Store updated"]
  /\ EditStore.p_photo <$> EditStore.mutations w = ["https://cdn/old.png"].
Proof. vm_compute. split; reflexivity. Qed.

(** C10 (amended): when the submitted form is valid, has media and their
    upload throws, the thrown value is caught in the handler, which shows it
    as a notification if it is an [Error] instance and shows nothing for it
    otherwise; the update mutation is sent all the same, exactly once, with
    the photo set to the seller's existing photo, or to the empty string
    when the seller has none. *)
Theorem upload_failure_still_updates (MediaSchema : EditStore.Media -> bool)
    (uploadFilesQuery : list EditStore.Media -> EditStore.Settled (list EditStore.AdminFile))
    (mutateAsync : EditStore.UpdatePayload -> Outcome JObject)
    (seller : EditStore.StoreVendor) (values : EditStore.Values)
    (w : EditStore.FormWorld) (ms : list EditStore.Media) (t : EditStore.Thrown) :
  EditStore.EditStoreSchema MediaSchema values = true ->
  EditStore.hasMedia values = Some ms ->
  uploadFilesQuery ms = EditStore.Failed t ->
  let p :=
    {| EditStore.p_name := EditStore.name values;
       EditStore.p_email := EditStore.email values;
       EditStore.p_phone := EditStore.phone values;
       EditStore.p_description := EditStore.description values;
       EditStore.p_photo := default "" (EditStore.photo seller) |} in
  let w' :=
    snd (EditStore.handleSubmit MediaSchema uploadFilesQuery mutateAsync
           seller values w) in
  EditStore.mutations w' = EditStore.mutations w ++ [p]
  /\ EditStore.toasts w' =
       EditStore.toasts w
       ++ match t with
          | EditStore.ErrorInstance message => [EditStore.ToastError message]
          | EditStore.OtherValue _ => []
          end
       ++ [settleToast (mutateAsync p)].
Proof.
  intros Hvalid Hmedia Hfail p w'. subst p w'.
  rewrite (handleSubmit_valid _ _ _ _ _ _ Hvalid).
  unfold EditStore.onValid, EditStore.tryUpload.
  rewrite Hmedia, Hfail.
  unfold EditStore.payloadOf. cbn [head fmap option_fmap option_map].
  cbn [EditStore.orElse]. rewrite (orElse_default (EditStore.photo seller)).
  destruct (mutateAsync _) as [d | e]; destruct t as [m | v]; cbn;
    (split; [reflexivity |]); by rewrite <- ?app_assoc.
Qed.

Lemma upload_failure_still_updates_witness :
  let values :=
    {| EditStore.name := "Shop"; EditStore.description := None;
       EditStore.phone := None; EditStore.email := None;
       EditStore.media :=
         Some [ {| EditStore.media_url := "blob:1";
                   EditStore.media_fileName := "logo.png";
                   EditStore.media_isThumbnail := false |} ] |} in
  let seller :=
    {| EditStore.seller_name := "Shop"; EditStore.seller_description := None;
       EditStore.seller_phone := None; EditStore.seller_email := None;
       EditStore.photo := None |} in
  let w0 :=
    {| EditStore.toasts := []; EditStore.mutations := [];
       EditStore.closed := false |} in
  let w :=
    snd (EditStore.handleSubmit (fun _ => true)
           (fun _ => EditStore.Failed (EditStore.ErrorInstance "Failed to fetch"))
           (fun _ => Rejected notFound) seller values w0) in
  EditStore.p_photo <$> EditStore.mutations w = [""]
  /\ EditStore.toasts w
     = [EditStore.ToastError "Failed to fetch"; EditStore.ToastError "Not Found"].
Proof.
  intros values seller w0 w.
  destruct (upload_failure_still_updates (fun _ => true)
              (fun _ => EditStore.Failed (EditStore.ErrorInstance "Failed to fetch"))
              (fun _ => Rejected notFound) seller values w0
              [ {| EditStore.media_url := "blob:1";
                   EditStore.media_fileName := "logo.png";
                   EditStore.media_isThumbnail := false |} ]
              (EditStore.ErrorInstance "Failed to fetch")
              eq_refl eq_refl eq_refl) as [Hm Ht].
  split.
  - subst w. rewrite Hm. reflexivity.
  - subst w. rewrite Ht. reflexivity.
Defined.

(** * Further properties of the hooks and of the loader *)

Lemma hasKey_markStale (key : QueryKey) (e : CachedQuery) :
  hasKey key (markStale e) = hasKey key e.
Proof. reflexivity. Qed.

(** Looking a key up after an invalidation: the entry found is the one found
    before, marked stale when the filter matches the key. *)
Lemma getQuery_invalidateEntries (key f : QueryKey) (c : list CachedQuery) :
  getQuery key (invalidateEntries f c)
  = (fun e => if matchesKey f key then markStale e else e) <$> getQuery key c.
Proof.
  unfold getQuery, invalidateEntries.
  induction c as [| e c IH]; [reflexivity |]. simpl.
  destruct (hasKey key e) eqn:Hk.
  - assert (Hkey : cq_key e = key).
    { unfold hasKey in Hk. by apply bool_decide_eq_true in Hk. }
    rewrite Hkey.
    destruct (matchesKey f key).
    + by rewrite hasKey_markStale, Hk.
    + by rewrite Hk.
  - destruct (matchesKey f (cq_key e)).
    + rewrite hasKey_markStale, Hk. exact IH.
    + rewrite Hk. exact IH.
Qed.

Lemma freshData_invalidated (key f : QueryKey) (c : list CachedQuery) :
  f `prefix_of` key -> freshData key (invalidateEntries f c) = None.
Proof.
  intros Hp. apply matchesKey_true in Hp.
  unfold freshData. rewrite getQuery_invalidateEntries, Hp.
  by destruct (getQuery key c).
Qed.

Lemma freshData_not_invalidated (key f : QueryKey) (c : list CachedQuery) :
  matchesKey f key = false ->
  freshData key (invalidateEntries f c) = freshData key c.
Proof.
  intros Hm. unfold freshData. rewrite getQuery_invalidateEntries, Hm.
  by destruct (getQuery key c).
Qed.

Lemma freshData_invalidated_any (key f : QueryKey) (c : list CachedQuery) :
  freshData key c = None -> freshData key (invalidateEntries f c) = None.
Proof.
  intros Hn. unfold freshData in *. rewrite getQuery_invalidateEntries.
  destruct (getQuery key c) as [e |]; [| reflexivity]. simpl.
  destruct (matchesKey f key); [reflexivity |]. exact Hn.
Qed.

Lemma mutate_rejected {V : Type} (server : Server)
    (o : MutationObserverOptions V) (v : V) (w w' : World) (e : FetchError) :
  mutate server o v w = (Rejected e, w') ->
  server (mutationFn o v) = Rejected e
  /\ w' = match onError o with
          | Some f => f e v (snd (perform server (mutationFn o v) w))
          | None => snd (perform server (mutationFn o v) w)
          end.
Proof.
  unfold mutate, perform. simpl.
  destruct (server (mutationFn o v)) as [d | e0]; [discriminate |].
  intros [= <- <-]. by destruct (onError o).
Qed.

(** A settled success of [useQuery] leaves its data cached under the key. *)
Lemma useQuery_success_cached (server : Server) (o : QueryObserverOptions)
    (w w' : World) (r : QueryResult) :
  useQuery server o w = (r, w') ->
  isError r = false -> isPending r = false ->
  exists d, data r = Some d
            /\ cq_data <$> getQuery (queryKey o) (cache w') = Some d.
Proof.
  unfold useQuery.
  destruct (freshData (queryKey o) (cache w)) as [d |] eqn:Hf.
  - intros [= <- <-] _ _. exists d. split; [reflexivity |].
    apply freshData_Some in Hf as (e & -> & <- & _). reflexivity.
  - destruct (enabled o) as [[|] |].
    2: { destruct (cq_data <$> getQuery (queryKey o) (cache w)) as [d |] eqn:Hc.
         - intros [= <- <-] _ _. by exists d.
         - intros [= <- <-] _ Hp. discriminate Hp. }
    all: unfold fetchAndStore, perform; cbn [fq_queryFn fq_queryKey];
      (destruct (server (queryFn o)) as [d | e];
       [ intros [= <- <-] _ _; exists d; split; [reflexivity |];
         pose proof (freshData_setQueryData (queryKey o) d (cache w)) as Hs;
         apply freshData_Some in Hs as (e' & Hg & <- & _);
         cbn [cache withCache]; by rewrite Hg
       | intros [= <- <-] He _; discriminate He ]).
Qed.

Lemma create_marks_lists_only_witness :
  let w' := snd (mutate okServer (useCreateShippingProfile None) ∅ sampleWorld) in
  cache w' !! 0
    = Some (markStale
              (watchedEntry (qk_list shippingProfileQueryKeys (Some pageQuery))))
  /\ cache w' !! 2
    = Some (watchedEntry (qk_detail shippingProfileQueryKeys "sp_1" None)).
Proof.
  split.
  - refine (proj1 (create_marks_lists_only okServer None ∅ ∅ sampleWorld _ 0 _
                     eq_refl eq_refl eq_refl) _).
    vm_compute. by eexists.
  - refine (proj2 (create_marks_lists_only okServer None ∅ ∅ sampleWorld _ 2 _
                     eq_refl eq_refl eq_refl) _).
    vm_compute. by eexists.
Defined.

Lemma update_marks_detail_and_lists_witness :
  cache (snd (mutate okServer (useUpdateShippingProfile "sp_1" None) ∅ sampleWorld))
    !! 2
  = Some (markStale
            (watchedEntry (qk_detail shippingProfileQueryKeys "sp_1" None))).
Proof.
  refine (update_marks_detail_and_lists okServer "sp_1" None ∅ ∅ sampleWorld _ 2 _
            eq_refl eq_refl eq_refl _).
  left. vm_compute. by eexists.
Defined.

(** An update and a delete of the same id invalidate alike: started from the
    same cache, the caller's options having no [onSuccess] property, both
    leave the same cache. *)
Theorem update_delete_same_invalidation (server1 server2 : Server) (id : string)
    (o1 : option (UseMutationOptions JObject))
    (o2 : option (UseMutationOptions unit))
    (payload d1 d2 : JObject) (w w1 w2 : World) :
  onSuccessProperty o1 = Absent ->
  onSuccessProperty o2 = Absent ->
  mutate server1 (useUpdateShippingProfile id o1) payload w = (Resolved d1, w1) ->
  mutate server2 (useDeleteShippingProfile id o2) tt w = (Resolved d2, w2) ->
  cache w1 = cache w2.
Proof.
  intros H1 H2 Hu Hd.
  rewrite (update_invalidation _ _ _ _ _ _ _ H1 Hu).
  by rewrite (delete_invalidation _ _ _ _ _ _ H2 Hd).
Qed.

Lemma update_delete_same_invalidation_witness :
  cache (snd (mutate okServer (useUpdateShippingProfile "sp_1" None) ∅ sampleWorld))
  = cache (snd (mutate okServer (useDeleteShippingProfile "sp_1" None) tt sampleWorld)).
Proof.
  refine (update_delete_same_invalidation okServer okServer "sp_1" None None
            ∅ ∅ ∅ sampleWorld _ _ eq_refl eq_refl eq_refl eq_refl).
Defined.

(** With an [onSuccess] among the caller's options, the handler written in
    the hook does not run at all: after a successful create, update or
    delete the world is the one the caller's callback returns from the world
    in which only the request was sent. *)
Theorem caller_onSuccess_runs_alone :
  (forall server options f payload d w w',
      options ≫= um_onSuccess = Some f ->
      mutate server (useCreateShippingProfile options) payload w = (Resolved d, w') ->
      exists req, server req = Resolved d
        /\ w' = f d payload {| cache := cache w; sent := sent w ++ [req] |})
  /\ (forall server id options f payload d w w',
      options ≫= um_onSuccess = Some f ->
      mutate server (useUpdateShippingProfile id options) payload w = (Resolved d, w') ->
      exists req, server req = Resolved d
        /\ w' = f d payload {| cache := cache w; sent := sent w ++ [req] |})
  /\ (forall server id options f d w w',
      options ≫= um_onSuccess = Some f ->
      mutate server (useDeleteShippingProfile id options) tt w = (Resolved d, w') ->
      exists req, server req = Resolved d
        /\ w' = f d tt {| cache := cache w; sent := sent w ++ [req] |}).
Proof.
  split; [| split].
  - intros server options f payload d w w' Hf Hm.
    pose proof (mutate_resolved _ _ _ _ _ _ Hm) as [Hreq _].
    eexists. split; [exact Hreq |].
    exact (caller_onSuccess_replaces_handler _ _ _ _ _ _ _ _ _ Hf Hm).
  - intros server id options f payload d w w' Hf Hm.
    pose proof (mutate_resolved _ _ _ _ _ _ Hm) as [Hreq _].
    eexists. split; [exact Hreq |].
    exact (caller_onSuccess_replaces_handler _ _ _ _ _ _ _ _ _ Hf Hm).
  - intros server id options f d w w' Hf Hm.
    pose proof (mutate_resolved _ _ _ _ _ _ Hm) as [Hreq _].
    eexists. split; [exact Hreq |].
    exact (caller_onSuccess_replaces_handler _ _ _ _ _ _ _ _ _ Hf Hm).
Qed.

Lemma caller_onSuccess_runs_alone_witness :
  exists req,
    okServer req = Resolved ∅
    /\ snd (mutate okServer (useUpdateShippingProfile "sp_1" onlyOnSuccess) ∅ sampleWorld)
       = {| cache := cache sampleWorld; sent := sent sampleWorld ++ [req] |}.
Proof.
  exact (proj1 (proj2 caller_onSuccess_runs_alone) okServer "sp_1" onlyOnSuccess
           (fun _ _ w => w) ∅ ∅ sampleWorld _ eq_refl eq_refl).
Defined.

(** The hooks have no error handler of their own: when the request of a
    create, update or delete fails and the caller passed no [onError], the
    cache is what it was and the one request is all that was sent. *)
Theorem failed_mutation_leaves_cache :
  (forall server options payload e w w',
      options ≫= um_onError = None ->
      mutate server (useCreateShippingProfile options) payload w = (Rejected e, w') ->
      cache w' = cache w /\ length (sent w') = S (length (sent w)))
  /\ (forall server id options payload e w w',
      options ≫= um_onError = None ->
      mutate server (useUpdateShippingProfile id options) payload w = (Rejected e, w') ->
      cache w' = cache w /\ length (sent w') = S (length (sent w)))
  /\ (forall server id options e w w',
      options ≫= um_onError = None ->
      mutate server (useDeleteShippingProfile id options) tt w = (Rejected e, w') ->
      cache w' = cache w /\ length (sent w') = S (length (sent w))).
Proof.
  split; [| split].
  - intros server options payload e w w' Hno Hm.
    apply mutate_rejected in Hm as [_ ->].
    unfold useCreateShippingProfile, spreadMutationOptions. cbn [onError].
    rewrite Hno. simpl. rewrite length_app. simpl. split; [done | lia].
  - intros server id options payload e w w' Hno Hm.
    apply mutate_rejected in Hm as [_ ->].
    unfold useUpdateShippingProfile, spreadMutationOptions. cbn [onError].
    rewrite Hno. simpl. rewrite length_app. simpl. split; [done | lia].
  - intros server id options e w w' Hno Hm.
    apply mutate_rejected in Hm as [_ ->].
    unfold useDeleteShippingProfile, spreadMutationOptions. cbn [onError].
    rewrite Hno. simpl. rewrite length_app. simpl. split; [done | lia].
Qed.

Lemma failed_mutation_leaves_cache_witness :
  let w' :=
    snd (mutate failingServer (useDeleteShippingProfile "sp_1" None) tt sampleWorld) in
  cache w' = cache sampleWorld /\ length (sent w') = 1.
Proof.
  exact (proj2 (proj2 failed_mutation_leaves_cache) failingServer "sp_1" None
           notFound sampleWorld _ eq_refl eq_refl).
Defined.

(** After a successful update of [x], the caller's options having no
    [onSuccess] property, nothing fresh is left under [detail(x, q)] or
    [list(q)], for any [q], while what was fresh under the detail key of
    another id still is. *)
Theorem update_leaves_no_fresh_data (server : Server) (x : string)
    (options : option (UseMutationOptions JObject)) (payload d : JObject)
    (w w' : World) (q : option JObject) (y : string) :
  onSuccessProperty options = Absent ->
  mutate server (useUpdateShippingProfile x options) payload w = (Resolved d, w') ->
  y <> x ->
  freshData (qk_detail shippingProfileQueryKeys x q) (cache w') = None
  /\ freshData (qk_list shippingProfileQueryKeys q) (cache w') = None
  /\ freshData (qk_detail shippingProfileQueryKeys y q) (cache w')
     = freshData (qk_detail shippingProfileQueryKeys y q) (cache w).
Proof.
  intros Hno Hm Hne. rewrite (update_invalidation _ _ _ _ _ _ _ Hno Hm).
  split; [| split].
  - apply freshData_invalidated_any, freshData_invalidated.
    exists (optPart q). reflexivity.
  - apply freshData_invalidated. by apply prefix_app_r.
  - rewrite freshData_not_invalidated.
    + apply freshData_not_invalidated.
      by apply (detail_misses_other_ids x y (optPart q)).
    + apply (lists_misses_detail_keys (KStr y :: optPart q)).
Qed.

Lemma update_leaves_no_fresh_data_witness :
  let w' := snd (mutate okServer (useUpdateShippingProfile "sp_1" None) ∅ sampleWorld) in
  freshData (qk_detail shippingProfileQueryKeys "sp_1" None) (cache w') = None
  /\ freshData (qk_list shippingProfileQueryKeys (Some pageQuery)) (cache w') = None
  /\ freshData (qk_detail shippingProfileQueryKeys "sp_2" None) (cache w') = Some ∅.
Proof.
  intros w'.
  destruct (update_leaves_no_fresh_data okServer "sp_1" None ∅ ∅ sampleWorld w'
              None "sp_2" eq_refl eq_refl ltac:(discriminate)) as (Hd & _ & Hy).
  destruct (update_leaves_no_fresh_data okServer "sp_1" None ∅ ∅ sampleWorld w'
              (Some pageQuery) "sp_2" eq_refl eq_refl ltac:(discriminate))
    as (_ & Hl & _).
  split; [exact Hd |]. split; [exact Hl |]. rewrite Hy. reflexivity.
Defined.

(** After a successful create, the caller's options having no [onSuccess]
    property, no list key is fresh, while what was fresh under a detail key
    still is. *)
Theorem create_refetches_lists_only (server : Server)
    (options : option (UseMutationOptions JObject)) (payload d : JObject)
    (w w' : World) (q : option JObject) (id : string) :
  onSuccessProperty options = Absent ->
  mutate server (useCreateShippingProfile options) payload w = (Resolved d, w') ->
  freshData (qk_list shippingProfileQueryKeys q) (cache w') = None
  /\ freshData (qk_detail shippingProfileQueryKeys id q) (cache w')
     = freshData (qk_detail shippingProfileQueryKeys id q) (cache w).
Proof.
  intros Hno Hm. rewrite (create_invalidation _ _ _ _ _ _ Hno Hm). split.
  - apply freshData_invalidated. by apply prefix_app_r.
  - apply freshData_not_invalidated.
    apply (lists_misses_detail_keys (KStr id :: optPart q)).
Qed.

Lemma create_refetches_lists_only_witness :
  let w' := snd (mutate okServer (useCreateShippingProfile None) ∅ sampleWorld) in
  freshData (qk_list shippingProfileQueryKeys (Some pageQuery)) (cache w') = None
  /\ freshData (qk_detail shippingProfileQueryKeys "sp_1" None) (cache w') = Some ∅.
Proof.
  intros w'.
  destruct (create_refetches_lists_only okServer None ∅ ∅ sampleWorld w'
              (Some pageQuery) "sp_1" eq_refl eq_refl) as [Hl _].
  destruct (create_refetches_lists_only okServer None ∅ ∅ sampleWorld w'
              None "sp_1" eq_refl eq_refl) as [_ Hd].
  split; [exact Hl |]. rewrite Hd. reflexivity.
Defined.

(** The loader reuses what the get hook fetched: once [useShippingProfile]
    for [id], called without a query, has settled with data, the loader for
    the same route id resolves with that data and sends no request. *)
Theorem hook_then_loader_reuses (server server' : Server) (id : string)
    (options : option UseQueryOptions) (w w' : World) (res : HookResult) :
  useShippingProfile server id None options w = (res, w') ->
  hr_isError res = false ->
  hr_isPending res = false ->
  shippingProfileLoader server' {[ "shipping_profile_id" := id ]} w'
  = Some (Resolved (hr_fields res), w').
Proof.
  unfold useShippingProfile.
  destruct (useQuery server _ w) as [r w0] eqn:Hq.
  intros [= <- <-] He Hp.
  destruct (useQuery_success_cached _ _ _ _ _ Hq He Hp) as (d & Hd & Hc).
  unfold shippingProfileLoader. rewrite lookup_singleton_eq.
  cbn [mbind option_bind]. unfold ensureQueryData.
  change (fq_queryKey (shippingProfileQuery id))
    with (queryKey (useShippingProfileOptions id None options)).
  destruct (getQuery _ (cache w0)) as [e |]; [| discriminate].
  simpl in Hc. injection Hc as ->. unfold spreadResult. simpl. by rewrite Hd.
Qed.

Lemma hook_then_loader_reuses_witness :
  let w' :=
    snd (useShippingProfile okServer "sp_9" None None sampleWorld) in
  shippingProfileLoader failingServer {[ "shipping_profile_id" := "sp_9" ]} w'
  = Some (Resolved ∅, w').
Proof.
  exact (hook_then_loader_reuses okServer failingServer "sp_9" None sampleWorld
           _ _ eq_refl eq_refl eq_refl).
Defined.

(** The loader does not catch: when nothing is cached for the route id and
    the request fails, the loader rejects with the fetch error, creates no
    cache entry, and has sent the one request. *)
Theorem loader_failure_propagates (server : Server) (id : string) (w : World)
    (e : FetchError) :
  getQuery (qk_detail shippingProfileQueryKeys id None) (cache w) = None ->
  server (fetchQuery ("/vendor/shipping-profiles/" +:+ id) GET None None)
    = Rejected e ->
  shippingProfileLoader server {[ "shipping_profile_id" := id ]} w
  = Some (Rejected e,
          {| cache := cache w;
             sent := sent w
               ++ [fetchQuery ("/vendor/shipping-profiles/" +:+ id) GET None None] |}).
Proof.
  intros Hf Hfail. unfold shippingProfileLoader.
  rewrite lookup_singleton_eq. cbn [mbind option_bind].
  unfold ensureQueryData. cbn [fq_queryKey shippingProfileQuery].
  rewrite Hf. unfold fetchAndStore, perform.
  change (fq_queryFn (shippingProfileQuery id))
    with (fetchQuery ("/vendor/shipping-profiles/" +:+ id) GET None None).
  by rewrite Hfail.
Qed.

Lemma loader_failure_propagates_witness :
  shippingProfileLoader failingServer
    {[ "shipping_profile_id" := "sp_9" ]} sampleWorld
  = Some (Rejected notFound,
          {| cache := cache sampleWorld;
             sent := [fetchQuery "/vendor/shipping-profiles/sp_9" GET None None] |}).
Proof.
  exact (loader_failure_propagates failingServer "sp_9" sampleWorld notFound
           eq_refl eq_refl).
Defined.

(** With data cached for the route id, even invalidated, the loader resolves
    with it and sends nothing, whatever the server would answer. *)
Lemma loader_reuses_invalidated_data :
  let stale :=
    snd (mutate okServer (useUpdateShippingProfile "sp_1" None) ∅ sampleWorld) in
  freshData (qk_detail shippingProfileQueryKeys "sp_1" None) (cache stale) = None
  /\ shippingProfileLoader failingServer
       {[ "shipping_profile_id" := "sp_1" ]} stale
     = Some (Resolved ∅, stale).
Proof. vm_compute. split; reflexivity. Qed.

(** The list hook's result does not depend on its query: for two queries
    with nothing cached under their keys, it sends the same request and
    returns the same result. *)
Theorem list_result_ignores_query (server : Server) (q1 q2 : option JObject)
    (options : option UseQueryOptions) (w : World) :
  getQuery (qk_list shippingProfileQueryKeys q1) (cache w) = None ->
  getQuery (qk_list shippingProfileQueryKeys q2) (cache w) = None ->
  fst (useShippingProfiles server q1 options w)
    = fst (useShippingProfiles server q2 options w)
  /\ sent (snd (useShippingProfiles server q1 options w))
    = sent (snd (useShippingProfiles server q2 options w)).
Proof.
  intros H1 H2. unfold useShippingProfiles, useQuery, freshData.
  cbn [queryKey useShippingProfilesOptions spreadQueryOptions enabled queryFn].
  rewrite H1, H2.
  destruct (options ≫= uq_enabled) as [[|] |]; try done;
    unfold fetchAndStore, perform; cbn [fq_queryFn fq_queryKey];
    by destruct (server _).
Qed.

Lemma list_result_ignores_query_witness :
  let empty := {| cache := []; sent := [] |} in
  fst (useShippingProfiles okServer (Some pageQuery) None empty)
  = fst (useShippingProfiles okServer None None empty).
Proof.
  exact (proj1 (list_result_ignores_query okServer (Some pageQuery) None None
                  {| cache := []; sent := [] |} eq_refl eq_refl)).
Defined.

(** With invalidated data still cached under one of the two keys the results
    can differ: a failed refetch keeps the data that was cached. *)
Lemma list_results_differ_with_cached_data :
  let stale :=
    snd (mutate okServer (useCreateShippingProfile None) pageQuery
           {| cache :=
                [ {| cq_key := qk_list shippingProfileQueryKeys None;
                     cq_data := pageQuery; cq_isInvalidated := false;
                     cq_observers := 1; cq_fetching := false |} ];
              sent := [] |}) in
  freshData (qk_list shippingProfileQueryKeys None) (cache stale) = None
  /\ freshData (qk_list shippingProfileQueryKeys (Some pageQuery)) (cache stale)
     = None
  /\ hr_fields (fst (useShippingProfiles failingServer None None stale))
     <> hr_fields (fst (useShippingProfiles failingServer (Some pageQuery) None stale)).
Proof.
  split; [reflexivity |]. split; [reflexivity |].
  vm_compute. discriminate.
Qed.

(** ** The inventory list table *)



(** ** The submit handler, whatever the upload does *)

(** The uploaded media the callback goes on with after the [try]. *)
Lemma onValid_unfold
    (uploadFilesQuery : list EditStore.Media -> EditStore.Settled (list EditStore.AdminFile))
    (mutateAsync : EditStore.UpdatePayload -> Outcome JObject)
    (seller : EditStore.StoreVendor) (values : EditStore.Values)
    (w : EditStore.FormWorld) :
  exists uploaded w0,
    EditStore.mutations w0 = EditStore.mutations w
    /\ EditStore.closed w0 = EditStore.closed w
    /\ EditStore.onValid uploadFilesQuery mutateAsync seller values w
       = let p := EditStore.payloadOf seller values uploaded in
         match mutateAsync p with
         | Resolved _ =>
             (Resolved tt,
              EditStore.handleSuccess
                (EditStore.toast (EditStore.ToastSuccess "Store updated")
                   (EditStore.send p w0)))
         | Rejected e =>
             (Rejected e,
              EditStore.toast (EditStore.ToastError (fe_message e))
                (EditStore.send p w0))
         end.
Proof.
  unfold EditStore.onValid.
  destruct (EditStore.tryUpload uploadFilesQuery values) as [ms | t].
  - exists ms, w. done.
  - exists [], (EditStore.catchUpload t w). by destruct t.
Qed.

(** A form that passes its schema sends exactly one update, with the name,
    e-mail, phone and description of the form, however the upload and the
    update settle; the handler resolves and closes the drawer when the
    update resolves, and rejects with the update's error, leaving the drawer
    as it was, when the update rejects.  A form that fails its schema (an
    empty name, a media item the schema refuses) sends nothing and shows
    nothing. *)
Theorem submit_sends_one_update (MediaSchema : EditStore.Media -> bool)
    (uploadFilesQuery : list EditStore.Media -> EditStore.Settled (list EditStore.AdminFile))
    (mutateAsync : EditStore.UpdatePayload -> Outcome JObject)
    (seller : EditStore.StoreVendor) (values : EditStore.Values)
    (w : EditStore.FormWorld) :
  let '(r, w') :=
    EditStore.handleSubmit MediaSchema uploadFilesQuery mutateAsync
      seller values w in
  if EditStore.EditStoreSchema MediaSchema values
  then
    exists p,
      EditStore.mutations w' = EditStore.mutations w ++ [p]
      /\ EditStore.p_name p = EditStore.name values
      /\ EditStore.p_email p = EditStore.email values
      /\ EditStore.p_phone p = EditStore.phone values
      /\ EditStore.p_description p = EditStore.description values
      /\ match mutateAsync p with
         | Resolved _ => r = Resolved tt /\ EditStore.closed w' = true
         | Rejected e =>
             r = Rejected e /\ EditStore.closed w' = EditStore.closed w
             /\ last (EditStore.toasts w')
                = Some (EditStore.ToastError (fe_message e))
         end
  else r = Resolved tt /\ w' = w.
Proof.
  unfold EditStore.handleSubmit.
  destruct (EditStore.EditStoreSchema MediaSchema values); [| done].
  destruct (onValid_unfold uploadFilesQuery mutateAsync seller values w)
    as (uploaded & w0 & Hm & Hc & ->).
  cbn zeta.
  destruct (mutateAsync (EditStore.payloadOf seller values uploaded)) eqn:Hmut;
    eexists; (split; [simpl; rewrite Hm; reflexivity |]);
    repeat (split; [reflexivity |]); rewrite Hmut.
  - done.
  - split; [done |]. split; [exact Hc |]. simpl. apply last_snoc.
Qed.

(** An existing photo is never cleared: when the seller has a non-empty
    photo, the update the handler sends has a non-empty photo, whatever the
    form holds and however the upload settles. *)
Theorem submit_never_clears_photo (MediaSchema : EditStore.Media -> bool)
    (uploadFilesQuery : list EditStore.Media -> EditStore.Settled (list EditStore.AdminFile))
    (mutateAsync : EditStore.UpdatePayload -> Outcome JObject)
    (seller : EditStore.StoreVendor) (values : EditStore.Values)
    (w : EditStore.FormWorld) (s : string) :
  EditStore.photo seller = Some s -> s <> "" ->
  Forall (fun p => EditStore.p_photo p <> "")
    (drop (length (EditStore.mutations w))
       (EditStore.mutations
          (snd (EditStore.handleSubmit MediaSchema uploadFilesQuery mutateAsync
                  seller values w)))).
Proof.
  intros Hp Hs. unfold EditStore.handleSubmit.
  destruct (EditStore.EditStoreSchema MediaSchema values).
  2: { simpl. rewrite drop_all. constructor. }
  destruct (onValid_unfold uploadFilesQuery mutateAsync seller values w)
    as (uploaded & w0 & Hm & _ & ->).
  cbn zeta.
  assert (Hphoto : EditStore.p_photo (EditStore.payloadOf seller values uploaded) <> "").
  { unfold EditStore.payloadOf. cbn [EditStore.p_photo]. rewrite Hp.
    unfold EditStore.orElse at 1.
    destruct (_ <$> head uploaded) as [u |].
    - destruct (decide (u = "")); [| done].
      unfold EditStore.orElse. by destruct (decide (s = "")).
    - unfold EditStore.orElse. by destruct (decide (s = "")). }
  destruct (mutateAsync _); simpl; rewrite Hm, drop_app_length;
    by apply Forall_singleton.
Qed.

Lemma submit_never_clears_photo_witness :
  let seller :=
    {| EditStore.seller_name := "Shop"; EditStore.seller_description := None;
       EditStore.seller_phone := None; EditStore.seller_email := None;
       EditStore.photo := Some "https://cdn/old.png" |} in
  let values :=
    {| EditStore.name := "Shop"; EditStore.description := None;
       EditStore.phone := None; EditStore.email := None;
       EditStore.media := None |} in
  let w0 :=
    {| EditStore.toasts := []; EditStore.mutations := [];
       EditStore.closed := false |} in
  Forall (fun p => EditStore.p_photo p <> "")
    (EditStore.mutations
       (snd (EditStore.handleSubmit (fun _ => true) (fun _ => EditStore.Fulfilled [])
               (fun _ => Resolved ∅) seller values w0))).
Proof.
  intros seller values w0.
  refine (submit_never_clears_photo (fun _ => true) (fun _ => EditStore.Fulfilled [])
            (fun _ => Resolved ∅) seller values w0 "https://cdn/old.png"
            eq_refl _).
  discriminate.
Defined.

(** When a valid form has no media (undefined or an empty array) the upload
    is not called: the outcome of the handler is the same for every upload
    function, and the photo sent is the seller's existing photo, or the
    empty string. *)
Theorem submit_without_media_skips_upload (MediaSchema : EditStore.Media -> bool)
    (upload1 upload2 : list EditStore.Media -> EditStore.Settled (list EditStore.AdminFile))
    (mutateAsync : EditStore.UpdatePayload -> Outcome JObject)
    (seller : EditStore.StoreVendor) (values : EditStore.Values)
    (w : EditStore.FormWorld) :
  EditStore.EditStoreSchema MediaSchema values = true ->
  EditStore.hasMedia values = None ->
  EditStore.handleSubmit MediaSchema upload1 mutateAsync seller values w
    = EditStore.handleSubmit MediaSchema upload2 mutateAsync seller values w
  /\ EditStore.p_photo <$>
       EditStore.mutations
         (snd (EditStore.handleSubmit MediaSchema upload1 mutateAsync
                 seller values w))
     = (EditStore.p_photo <$> EditStore.mutations w)
       ++ [default "" (EditStore.photo seller)].
Proof.
  intros Hvalid Hnone. rewrite !(handleSubmit_valid _ _ _ _ _ _ Hvalid).
  unfold EditStore.onValid, EditStore.tryUpload.
  rewrite Hnone. split; [reflexivity |].
  unfold EditStore.payloadOf. cbn [head fmap option_fmap option_map].
  cbn [EditStore.orElse]. rewrite orElse_default.
  destruct (mutateAsync _); simpl; by rewrite fmap_app.
Qed.

Lemma submit_without_media_skips_upload_witness :
  let seller :=
    {| EditStore.seller_name := "Shop"; EditStore.seller_description := None;
       EditStore.seller_phone := None; EditStore.seller_email := None;
       EditStore.photo := None |} in
  let values :=
    {| EditStore.name := "Shop"; EditStore.description := None;
       EditStore.phone := None; EditStore.email := None;
       EditStore.media := Some [] |} in
  let w0 :=
    {| EditStore.toasts := []; EditStore.mutations := [];
       EditStore.closed := false |} in
  EditStore.p_photo <$>
    EditStore.mutations
      (snd (EditStore.handleSubmit (fun _ => false)
              (fun _ => EditStore.Failed (EditStore.ErrorInstance "unused"))
              (fun _ => Resolved ∅) seller values w0))
  = [""].
Proof.
  intros seller values w0.
  exact (proj2 (submit_without_media_skips_upload (fun _ => false)
                  (fun _ => EditStore.Failed (EditStore.ErrorInstance "unused"))
                  (fun _ => EditStore.Fulfilled [])
                  (fun _ => Resolved ∅) seller values w0 eq_refl eq_refl)).
Defined.

(** When a valid form has media and their upload succeeds with a first file
    whose URL is not empty, the one update sent carries that URL as photo
    (further files are ignored), and the only notification shown is the one
    with which the update settles. *)
Theorem submit_uses_first_uploaded_url (MediaSchema : EditStore.Media -> bool)
    (uploadFilesQuery : list EditStore.Media -> EditStore.Settled (list EditStore.AdminFile))
    (mutateAsync : EditStore.UpdatePayload -> Outcome JObject)
    (seller : EditStore.StoreVendor) (values : EditStore.Values)
    (w : EditStore.FormWorld) (ms : list EditStore.Media)
    (f : EditStore.AdminFile) (fs : list EditStore.AdminFile) :
  EditStore.EditStoreSchema MediaSchema values = true ->
  EditStore.hasMedia values = Some ms ->
  uploadFilesQuery ms = EditStore.Fulfilled (f :: fs) ->
  EditStore.file_url f <> "" ->
  let p :=
    {| EditStore.p_name := EditStore.name values;
       EditStore.p_email := EditStore.email values;
       EditStore.p_phone := EditStore.phone values;
       EditStore.p_description := EditStore.description values;
       EditStore.p_photo := EditStore.file_url f |} in
  let w' :=
    snd (EditStore.handleSubmit MediaSchema uploadFilesQuery mutateAsync
           seller values w) in
  EditStore.mutations w' = EditStore.mutations w ++ [p]
  /\ EditStore.toasts w' = EditStore.toasts w ++ [settleToast (mutateAsync p)].
Proof.
  intros Hvalid Hmedia Hup Hurl p w'. subst p w'.
  rewrite (handleSubmit_valid _ _ _ _ _ _ Hvalid).
  unfold EditStore.onValid, EditStore.tryUpload.
  rewrite Hmedia, Hup.
  unfold EditStore.payloadOf. cbn [map head fmap option_fmap option_map].
  cbn [EditStore.orElse compose EditStore.um_file].
  destruct (decide (EditStore.file_url f = "")) as [He | _]; [done |].
  destruct (mutateAsync _); by cbn.
Qed.

Lemma submit_uses_first_uploaded_url_witness :
  let seller :=
    {| EditStore.seller_name := "Shop"; EditStore.seller_description := None;
       EditStore.seller_phone := None; EditStore.seller_email := None;
       EditStore.photo := Some "https://cdn/old.png" |} in
  let m :=
    {| EditStore.media_url := "blob:1"; EditStore.media_fileName := "logo.png";
       EditStore.media_isThumbnail := false |} in
  let values :=
    {| EditStore.name := "Shop"; EditStore.description := None;
       EditStore.phone := None; EditStore.email := None;
       EditStore.media := Some [m] |} in
  let w0 :=
    {| EditStore.toasts := []; EditStore.mutations := [];
       EditStore.closed := false |} in
  let up := fun _ : list EditStore.Media =>
    EditStore.Fulfilled
      [ {| EditStore.file_id := "f1"; EditStore.file_url := "https://cdn/new.png" |};
        {| EditStore.file_id := "f2"; EditStore.file_url := "https://cdn/other.png" |} ] in
  let w :=
    snd (EditStore.handleSubmit (fun _ => true) up (fun _ => Resolved ∅)
           seller values w0) in
  EditStore.p_photo <$> EditStore.mutations w = ["https://cdn/new.png"]
  /\ EditStore.toasts w = [EditStore.ToastSuccess "Store updated"].
Proof.
  intros seller m values w0 up w.
  destruct (submit_uses_first_uploaded_url (fun _ => true) up (fun _ => Resolved ∅)
              seller values w0 [m] _ _ eq_refl eq_refl eq_refl
              ltac:(discriminate)) as [Hm Ht].
  split.
  - subst w. rewrite Hm. reflexivity.
  - subst w. rewrite Ht. reflexivity.
Defined.

(** ** The media field *)

Lemma find_first_match {A : Type} (P : A -> bool) (pre post : list A) (x : A) :
  Forall (fun y => P y = false) pre -> P x = true ->
  find P (pre ++ x :: post) = Some x.
Proof.
  intros Hpre Hx. induction Hpre as [| y pre Hy _ IH]; simpl.
  - by rewrite Hx.
  - by rewrite Hy.
Qed.

Lemma find_no_match {A : Type} (P : A -> bool) (l : list A) :
  Forall (fun y => P y = false) l -> find P l = None.
Proof.
  intros Hl. induction Hl as [| y l Hy _ IH]; simpl; [done |]. by rewrite Hy.
Qed.

(** [hasInvalidFiles] reports the first file of an unsupported type: it
    answers true and sets the error of the media field to the message that
    names that file and lists the supported extensions; the files behind it
    play no role. *)
Theorem hasInvalidFiles_reports_first
    (pre post : list MediaField.FileType) (f : MediaField.FileType)
    (form : MediaField.Form) :
  Forall (fun g => MediaField.file_type (MediaField.file g)
                   ∈ MediaField.SUPPORTED_FORMATS) pre ->
  MediaField.file_type (MediaField.file f) ∉ MediaField.SUPPORTED_FORMATS ->
  MediaField.hasInvalidFiles (pre ++ f :: post) form
  = (true,
     {| MediaField.media := MediaField.media form;
        MediaField.mediaError :=
          Some (invalidFileError (MediaField.file_name (MediaField.file f))) |}).
Proof.
  intros Hpre Hf. unfold MediaField.hasInvalidFiles.
  rewrite (find_first_match MediaField.unsupported pre post f).
  - reflexivity.
  - eapply Forall_impl; [exact Hpre |]. intros g Hg.
    unfold MediaField.unsupported. by rewrite bool_decide_eq_true_2.
  - unfold MediaField.unsupported. by rewrite bool_decide_eq_false_2.
Qed.

Lemma hasInvalidFiles_reports_first_witness :
  let png := {| MediaField.id := "1"; MediaField.url := "blob:1";
                MediaField.file := {| MediaField.file_name := "a.png";
                                      MediaField.file_type := "image/png" |} |} in
  let pdf := {| MediaField.id := "2"; MediaField.url := "blob:2";
                MediaField.file := {| MediaField.file_name := "b.pdf";
                                      MediaField.file_type := "application/pdf" |} |} in
  let jpg := {| MediaField.id := "3"; MediaField.url := "blob:3";
                MediaField.file := {| MediaField.file_name := "c.jpg";
                                      MediaField.file_type := "image/jpg" |} |} in
  let form := {| MediaField.media := []; MediaField.mediaError := None |} in
  MediaField.hasInvalidFiles [png; pdf; jpg] form
  = (true, {| MediaField.media := [];
              MediaField.mediaError := Some (invalidFileError "b.pdf") |}).
Proof.
  intros png pdf jpg form.
  refine (hasInvalidFiles_reports_first [png] [jpg] pdf form _ _).
  - apply Forall_singleton. refine (bool_decide_unpack _ _); vm_compute; exact I.
  - refine (bool_decide_unpack _ _); vm_compute; exact I.
Defined.

(** When every file handed over is of a supported type, [onUploaded] clears
    the error of the field and stores exactly one media item: the first
    file, with [isThumbnail] false; further files are dropped, and for an
    empty list the item stored has no file at all. *)
Theorem onUploaded_keeps_first_file (files : list MediaField.FileType)
    (form : MediaField.Form) :
  Forall (fun g => MediaField.file_type (MediaField.file g)
                   ∈ MediaField.SUPPORTED_FORMATS) files ->
  MediaField.onUploaded files form
  = {| MediaField.media :=
         [ {| MediaField.item_file := head files;
              MediaField.item_isThumbnail := false |} ];
       MediaField.mediaError := None |}.
Proof.
  intros Hall. unfold MediaField.onUploaded, MediaField.hasInvalidFiles.
  rewrite (find_no_match MediaField.unsupported files); [reflexivity |].
  eapply Forall_impl; [exact Hall |]. intros g Hg.
  unfold MediaField.unsupported. by rewrite bool_decide_eq_true_2.
Qed.

Lemma onUploaded_keeps_first_file_witness :
  let png := {| MediaField.id := "1"; MediaField.url := "blob:1";
                MediaField.file := {| MediaField.file_name := "a.png";
                                      MediaField.file_type := "image/png" |} |} in
  let gif := {| MediaField.id := "2"; MediaField.url := "blob:2";
                MediaField.file := {| MediaField.file_name := "b.gif";
                                      MediaField.file_type := "image/gif" |} |} in
  MediaField.onUploaded [png; gif]
    {| MediaField.media := [];
       MediaField.mediaError := Some (invalidFileError "old.pdf") |}
  = {| MediaField.media :=
         [ {| MediaField.item_file := Some png;
              MediaField.item_isThumbnail := false |} ];
       MediaField.mediaError := None |}.
Proof.
  intros png gif.
  refine (onUploaded_keeps_first_file [png; gif] _ _).
  repeat apply Forall_cons_2; [| | apply Forall_nil_2];
    refine (bool_decide_unpack _ _); vm_compute; exact I.
Defined.

(** When some file handed over is of an unsupported type, wherever it is in
    the list, [onUploaded] stores nothing: the media of the form are what
    they were, and the field carries the error naming an unsupported file. *)
Theorem onUploaded_rejects_invalid_batch (files : list MediaField.FileType)
    (form : MediaField.Form) :
  Exists (fun g => (MediaField.file_type (MediaField.file g)
                    ∉ MediaField.SUPPORTED_FORMATS)) files ->
  MediaField.media (MediaField.onUploaded files form) = MediaField.media form
  /\ exists f,
       f ∈ files
       /\ (MediaField.file_type (MediaField.file f) ∉ MediaField.SUPPORTED_FORMATS)
       /\ MediaField.mediaError (MediaField.onUploaded files form)
          = Some (invalidFileError (MediaField.file_name (MediaField.file f))).
Proof.
  intros Hex. unfold MediaField.onUploaded, MediaField.hasInvalidFiles.
  destruct (find MediaField.unsupported files) as [f |] eqn:Hfind.
  - split; [reflexivity |]. exists f.
    apply find_some in Hfind as [Hin Hun].
    split; [by apply list_elem_of_In |]. split; [| reflexivity].
    unfold MediaField.unsupported in Hun.
    apply negb_true_iff, bool_decide_eq_false in Hun. exact Hun.
  - exfalso. apply Exists_exists in Hex as (g & Hin & Hg).
    apply list_elem_of_In in Hin.
    pose proof (find_none _ _ Hfind g Hin) as Hn.
    unfold MediaField.unsupported in Hn.
    apply negb_false_iff, bool_decide_eq_true in Hn. contradiction.
Qed.

Lemma onUploaded_rejects_invalid_batch_witness :
  let png := {| MediaField.id := "1"; MediaField.url := "blob:1";
                MediaField.file := {| MediaField.file_name := "a.png";
                                      MediaField.file_type := "image/png" |} |} in
  let pdf := {| MediaField.id := "2"; MediaField.url := "blob:2";
                MediaField.file := {| MediaField.file_name := "b.pdf";
                                      MediaField.file_type := "application/pdf" |} |} in
  let form := {| MediaField.media := []; MediaField.mediaError := None |} in
  MediaField.media (MediaField.onUploaded [png; pdf] form) = [].
Proof.
  intros png pdf form.
  refine (proj1 (onUploaded_rejects_invalid_batch [png; pdf] form _)).
  apply Exists_cons_tl, Exists_cons_hd.
  refine (bool_decide_unpack _ _); vm_compute; exact I.
Defined.

(** ** The variant section *)

Lemma length_omap_le {A B : Type} (f : A -> option B) (l : list A) :
  length (omap f l) <= length l.
Proof.
  induction l as [| x l IH]; csimpl; [lia |].
  destruct (f x); csimpl; lia.
Qed.

(** The actions of a row follow the number of its inventory items: edit
    alone without any; edit and the link to the inventory item, under
    [/inventory/] and its id, with one; edit and the link to the inventory
    kit, under [/inventory?] and the serialized, comma-joined inventory ids,
    with more (the guard on an empty id list never fires).  Edit navigates
    to the row that was clicked; the secondary action is always the deletion
    of this variant, with its title. *)
Theorem actions_follow_inventory_count (searchParamsOfId : string -> string)
    (variant row : VariantSection.Variant) :
  let '(mainActions, secondaryActions) :=
    VariantSection.getActions searchParamsOfId variant in
  let shown (a : VariantSection.Action) :=
    (VariantSection.icon a, VariantSection.label a, VariantSection.onClick a row) in
  shown <$> secondaryActions
    = [ (VariantSection.Trash, "actions.delete",
         VariantSection.HandleDelete (VariantSection.variant_id variant)
           (VariantSection.variant_title variant)) ]
  /\ shown <$> mainActions
     = (VariantSection.PencilSquare, "actions.edit",
        VariantSection.Navigate
          ("edit-variant?variant_id=" +:+ VariantSection.variant_id row))
       :: match VariantSection.inventory_items variant with
          | None | Some [] => []
          | Some [item] =>
              [ (VariantSection.Buildings,
                 "products.variant.inventory.actions.inventoryItems",
                 VariantSection.Navigate
                   ("/inventory/" +:+ VariantSection.inventory_item_id item)) ]
          | Some items =>
              [ (VariantSection.Component,
                 "products.variant.inventory.actions.inventoryKit",
                 VariantSection.Navigate
                   ("/inventory?" +:+
                    searchParamsOfId
                      (VariantSection.joinIds
                         (map (fun i => VariantSection.inventory_id
                                          <$> VariantSection.inventory i)
                              items)))) ]
          end.
Proof.
  unfold VariantSection.getActions.
  destruct (VariantSection.inventory_items variant) as [[| i [| j items]] |];
    split; reflexivity.
Qed.

(** Whenever the inventory cell of a row shows the kit icon, the row has at
    least two inventory items and its main actions are edit and the link to
    the inventory kit of those items. *)
Theorem kit_icon_implies_kit_action (searchParamsOfId : string -> string)
    (useInventoryItemLevels :
       option string -> option (list VariantSection.LocationLevel))
    (row : VariantSection.Variant) :
  VariantSection.cell_kitIcon
    (VariantSection.inventoryCell useInventoryItemLevels row) = true ->
  exists items,
    VariantSection.inventory_items row = Some items
    /\ 2 <= length items
    /\ (fun a => (VariantSection.icon a, VariantSection.label a,
                  VariantSection.onClick a row))
         <$> fst (VariantSection.getActions searchParamsOfId row)
       = [ (VariantSection.PencilSquare, "actions.edit",
            VariantSection.Navigate
              ("edit-variant?variant_id=" +:+ VariantSection.variant_id row));
           (VariantSection.Component,
            "products.variant.inventory.actions.inventoryKit",
            VariantSection.Navigate
              ("/inventory?" +:+
               searchParamsOfId
                 (VariantSection.joinIds
                    (map (fun i => VariantSection.inventory_id
                                     <$> VariantSection.inventory i)
                         items)))) ].
Proof.
  unfold VariantSection.inventoryCell, VariantSection.getInventory,
    VariantSection.presentInventories, VariantSection.getActions.
  cbn [VariantSection.cell_kitIcon VariantSection.hasInventoryKit].
  destruct (VariantSection.inventory_items row) as [items |]; [| discriminate].
  intros Hkit. apply bool_decide_eq_true in Hkit.
  pose proof (length_omap_le VariantSection.inventory items) as Hle.
  assert (Hlen : 2 <= length items) by lia. clear Hkit Hle.
  exists items. split; [reflexivity |]. split; [exact Hlen |].
  destruct items as [| i [| j items]]; simpl in Hlen; try lia.
  reflexivity.
Qed.

Lemma kit_icon_implies_kit_action_witness :
  let item n := {| VariantSection.inventory_id := n;
                   VariantSection.location_levels := None |} in
  let row :=
    {| VariantSection.variant_id := "v1";
       VariantSection.variant_title := Some "Small";
       VariantSection.variant_options := None;
       VariantSection.inventory_items :=
         Some [ {| VariantSection.inventory_item_id := "i1";
                   VariantSection.inventory := Some (item "i1") |};
                {| VariantSection.inventory_item_id := "i2";
                   VariantSection.inventory := Some (item "i2") |} ] |} in
  exists items,
    VariantSection.inventory_items row = Some items
    /\ 2 <= length items
    /\ (fun a => (VariantSection.icon a, VariantSection.label a,
                  VariantSection.onClick a row))
         <$> fst (VariantSection.getActions (fun s => "id=" +:+ s) row)
       = [ (VariantSection.PencilSquare, "actions.edit",
            VariantSection.Navigate "edit-variant?variant_id=v1");
           (VariantSection.Component,
            "products.variant.inventory.actions.inventoryKit",
            VariantSection.Navigate
              ("/inventory?" +:+
               (fun s => "id=" +:+ s)
                 (VariantSection.joinIds
                    (map (fun i => VariantSection.inventory_id
                                     <$> VariantSection.inventory i)
                         items)))) ].
Proof.
  intros item row.
  exact (kit_icon_implies_kit_action (fun s => "id=" +:+ s) (fun _ => None) row
           eq_refl).
Defined.

(** The converse fails: two inventory items without their [inventory]
    give the kit action but no kit icon. *)
Lemma kit_action_without_kit_icon :
  let row :=
    {| VariantSection.variant_id := "v1";
       VariantSection.variant_title := Some "Small";
       VariantSection.variant_options := None;
       VariantSection.inventory_items :=
         Some [ {| VariantSection.inventory_item_id := "i1";
                   VariantSection.inventory := None |};
                {| VariantSection.inventory_item_id := "i2";
                   VariantSection.inventory := None |} ] |} in
  VariantSection.icon <$> fst (VariantSection.getActions (fun s => "id=" +:+ s) row)
    = [VariantSection.PencilSquare; VariantSection.Component]
  /\ VariantSection.cell_kitIcon (VariantSection.inventoryCell (fun _ => None) row)
    = false.
Proof. split; reflexivity. Qed.

(** The cell of an option column shows a dash exactly when the variant has
    no value for that option, its options being missing included. *)
Theorem option_cell_dash_iff (o : VariantSection.ProductOption)
    (row : VariantSection.Variant) :
  VariantSection.optionCell o row = VariantSection.Dash
  <-> forall opts opt,
        VariantSection.variant_options row = Some opts ->
        opt ∈ opts ->
        VariantSection.ov_option_id opt <> Some (VariantSection.option_id o).
Proof.
  unfold VariantSection.optionCell.
  destruct (VariantSection.variant_options row) as [opts |]; simpl.
  - destruct (find (VariantSection.isValueOf o) opts) as [vo |] eqn:Hfind.
    + split; [discriminate |]. intros Hall. exfalso.
      apply find_some in Hfind as [Hin Hv].
      unfold VariantSection.isValueOf in Hv. apply bool_decide_eq_true in Hv.
      apply (Hall opts vo eq_refl); [by apply list_elem_of_In | exact Hv].
    + split; [| done]. intros _ opts' opt [= <-] Hin.
      apply list_elem_of_In in Hin.
      pose proof (find_none _ _ Hfind opt Hin) as Hn.
      unfold VariantSection.isValueOf in Hn.
      by apply bool_decide_eq_false in Hn.
  - split; [| done]. intros _ opts opt Hopts. discriminate Hopts.
Qed.

Lemma NoDup_fmap_eq {A B : Type} (f : A -> B) (l : list A) (x y : A) :
  NoDup (f <$> l) -> x ∈ l -> y ∈ l -> f x = f y -> x = y.
Proof.
  induction l as [| z l IH]; simpl.
  - intros _ Hx. by apply elem_of_nil in Hx.
  - rewrite NoDup_cons. intros [Hz Hnd] Hx Hy Hxy.
    apply elem_of_cons in Hx as [-> | Hx]; apply elem_of_cons in Hy as [-> | Hy].
    + reflexivity.
    + exfalso. apply Hz. rewrite Hxy. by apply list_elem_of_fmap_2.
    + exfalso. apply Hz. rewrite <- Hxy. by apply list_elem_of_fmap_2.
    + by apply IH.
Qed.

(** The cell of an option column does not depend on the order in which the
    variant lists its option values, as long as no two of them belong to the
    same option. *)
Theorem option_cell_order_independent (o : VariantSection.ProductOption)
    (row1 row2 : VariantSection.Variant)
    (opts1 opts2 : list VariantSection.OptionValue) :
  VariantSection.variant_options row1 = Some opts1 ->
  VariantSection.variant_options row2 = Some opts2 ->
  opts1 ≡ₚ opts2 ->
  NoDup (VariantSection.ov_option_id <$> opts1) ->
  VariantSection.optionCell o row1 = VariantSection.optionCell o row2.
Proof.
  intros H1 H2 Hperm Hnd. unfold VariantSection.optionCell.
  rewrite H1, H2. simpl.
  destruct (find (VariantSection.isValueOf o) opts1) as [x |] eqn:Hf1;
    destruct (find (VariantSection.isValueOf o) opts2) as [y |] eqn:Hf2.
  - apply find_some in Hf1 as [Hx Px]. apply find_some in Hf2 as [Hy Py].
    apply list_elem_of_In in Hx, Hy. rewrite <- Hperm in Hy.
    unfold VariantSection.isValueOf in Px, Py.
    apply bool_decide_eq_true in Px, Py.
    assert (x = y) as ->; [| reflexivity].
    apply (NoDup_fmap_eq VariantSection.ov_option_id opts1); [done .. |].
    congruence.
  - exfalso. apply find_some in Hf1 as [Hx Px].
    apply list_elem_of_In in Hx. rewrite Hperm in Hx.
    apply list_elem_of_In in Hx.
    pose proof (find_none _ _ Hf2 x Hx). congruence.
  - exfalso. apply find_some in Hf2 as [Hy Py].
    apply list_elem_of_In in Hy. rewrite <- Hperm in Hy.
    apply list_elem_of_In in Hy.
    pose proof (find_none _ _ Hf1 y Hy). congruence.
  - reflexivity.
Qed.

Lemma option_cell_order_independent_witness :
  let size := {| VariantSection.option_id := "opt_size";
                 VariantSection.option_title := "Size" |} in
  let s := {| VariantSection.ov_option_id := Some "opt_size";
              VariantSection.ov_value := "S" |} in
  let c := {| VariantSection.ov_option_id := Some "opt_color";
              VariantSection.ov_value := "Red" |} in
  let row opts :=
    {| VariantSection.variant_id := "v1"; VariantSection.variant_title := None;
       VariantSection.variant_options := Some opts;
       VariantSection.inventory_items := None |} in
  VariantSection.optionCell size (row [s; c])
  = VariantSection.optionCell size (row [c; s]).
Proof.
  intros size s c row.
  refine (option_cell_order_independent size (row [s; c]) (row [c; s])
            [s; c] [c; s] eq_refl eq_refl _ _).
  - apply Permutation_swap.
  - refine (bool_decide_unpack _ _); vm_compute; exact I.
Defined.

(** The option columns are the product's options, in their order, each with
    the cell of its option; a product without options has none. *)
Lemma optionColumns_cells (product : VariantSection.Product) :
  VariantSection.optionColumns product
  = (fun o => {| VariantSection.column_id := VariantSection.option_id o;
                 VariantSection.column_header := VariantSection.option_title o;
                 VariantSection.column_cell := VariantSection.optionCell o |})
      <$> default [] (VariantSection.product_options product).
Proof.
  unfold VariantSection.optionColumns.
  by destruct (VariantSection.product_options product).
Qed.
